(** * Codeforces statistics dashboard: the aggregation core of [app.py]

    A shallow embedding of [calculate_stats], [analyze_contests] and
    [get_user_global_country_rank], and the properties of their results.

    Python values are modelled as follows.
    - JSON objects read with [d.get(k)] have option fields ([None] when the
      key is absent); a key read with [d[k]] that may raise [KeyError] is an
      option field too and the lookup goes through the exception monad.
    - [Counter], [dict] and [set] are stdpp's [gmap] and [gset].
    - Python [int] is [Z] (or [nat] for counters that only grow from 0).
    - Python [float] is IEEE 754 binary64; a finite double is represented by
      its exact rational value and every operation rounds to nearest, ties to
      even (module [Float64]).
    - Python [str] is [string]; [str.lower], a built-in that follows
      Unicode, is a parameter [lower] of the functions that call it. *)

From Stdlib Require Import ZArith QArith Qround Lia Lqa Floats Uint63 Ascii.
From stdpp Require Import gmap strings list fin_maps fin_sets pretty.

(** ** Binary64 arithmetic on exact values *)

Module Float64.

Local Open Scope Z_scope.

(** A finite double, as the rational it denotes (always in lowest terms).
    Infinities, NaN and the negative zero never arise below. *)
Definition float : Type := Q.

(** [floor (log2 (p/d))] for positive [p], [d]. *)
Definition ilog2 (p d : positive) : Z :=
  let k := Z.log2 (Zpos p) - Z.log2 (Zpos d) in
  if Zpos p * 2 ^ Z.max 0 (- k) <? Zpos d * 2 ^ Z.max 0 k then k - 1 else k.

(** [2^e] as a rational, for any integer [e]. *)
Definition pow2 (e : Z) : Q :=
  if 0 <=? e then inject_Z (2 ^ e) else 1 # Z.to_pos (2 ^ (- e)).

(** Nearest integer, ties to the even one. *)
Definition rne (x : Q) : Z :=
  let f := Qfloor x in
  match ((x - inject_Z f) ?= (1 # 2))%Q with
  | Lt => f
  | Gt => f + 1
  | Eq => if Z.even f then f else f + 1
  end.

(** Exponent of the unit in the last place of the double nearest to [q]:
    53 bits of precision, smallest exponent -1074 (subnormals). *)
Definition ulp_exp (q : Q) : Z :=
  match Qnum q with
  | Z0 => -1074
  | Zpos p | Zneg p => Z.max (ilog2 p (Qden q) - 52) (-1074)
  end.

(** Round an exact rational to the nearest double. The exponent range is
    not bounded above: every value computed below is at most 100. *)
Definition fl (q : Q) : Q :=
  let e := ulp_exp q in
  Qred (inject_Z (rne (q / pow2 e)) * pow2 e).

Definition of_Z (n : Z) : float := fl (inject_Z n).
Definition mul (x y : float) : float := fl (x * y).
Definition sub (x y : float) : float := fl (x - y).

(** Python's [a / b] on two ints: the correctly rounded quotient. The
    caller checks [b <> 0] (see [truediv]). *)
Definition div_int (a b : Z) : float := fl (inject_Z a / inject_Z b).

(** Python's [round(x, 2)] on a float: the exact value of [x] is rounded to
    two decimals, ties to even, and the decimal is converted to the nearest
    double. *)
Definition round2 (x : float) : float := fl (inject_Z (rne (x * 100)) / 100).

(** The value of one of the kernel's primitive doubles, to compare the
    operations above with the kernel's on concrete inputs. *)
Definition of_prim (f : PrimFloat.float) : option Q :=
  match Prim2SF f with
  | S754_zero _ => Some 0%Q
  | S754_finite s m e =>
      Some (Qred (inject_Z (if s then Zneg m else Zpos m) * pow2 e))
  | _ => None
  end.

Definition prim_of_Z (n : Z) : PrimFloat.float :=
  PrimFloat.of_uint63 (Uint63.of_Z n).

End Float64.

(** ** Exceptions *)

Inductive exn : Type :=
  | KeyError (key : string)
  | AttributeError
  | ZeroDivisionError.

Inductive result (A : Type) : Type :=
  | Ok (a : A)
  | Raise (e : exn).
Arguments Ok {A} a.
Arguments Raise {A} e.

#[global] Instance result_ret : MRet result := fun A a => Ok a.
#[global] Instance result_bind : MBind result := fun A B k r =>
  match r with Ok a => k a | Raise e => Raise e end.

(** [d[key]]: raises [KeyError] when the key is absent. *)
Definition subscript {A} (key : string) (o : option A) : result A :=
  match o with Some a => Ok a | None => Raise (KeyError key) end.

(** [for x in l: s = body(s, x)], stopping at the first exception. *)
Fixpoint for_each {S A} (body : S -> A -> result S) (l : list A) (s : S)
  : result S :=
  match l with
  | [] => Ok s
  | x :: l' => s' ← body s x; for_each body l' s'
  end.

(** [a / b] on ints. *)
Definition truediv (a b : Z) : result Float64.float :=
  if (b =? 0)%Z then Raise ZeroDivisionError else Ok (Float64.div_int a b).

(** [c[k] += 1] on a [Counter] (or a [defaultdict(int)]). *)
Definition incr `{Countable K} (k : K) (c : gmap K nat) : gmap K nat :=
  <[k := S (default 0%nat (c !! k))]> c.

(** ** Data model *)

Record problem_t : Type := {
  contestId : option Z;
  index : option string;
  rating : option Z;
  tags : option (list string)
}.

Record submission : Type := {
  problem : option problem_t;
  verdict : option string
}.

(** [(contest_id, problem_index)], either component [None] when absent. *)
Abbreviation ProblemID := (option Z * option string)%type.

Record rating_change : Type := {
  contestName : option string;
  rank : option Z;
  newRating : option Z
}.

Record user_info_t : Type := {
  ui_country : option string;
  ui_handle : option string
}.

Record rated_user : Type := {
  ru_handle : option string;
  ru_country : option string
}.

(** ** [calculate_stats] *)

(** The variables of the first loop. *)
Module L.
Record t : Type := mk {
  accepted_count : nat;
  wrong_answer_count : nat;
  verdict_counter : gmap string nat;
  attempted_problems : gset ProblemID;
  solved_problems : gset ProblemID;
  first_attempt_solved : gset ProblemID;
  problem_first_submission : gmap ProblemID string;
  contests_participated : gset (option Z);
  difficulty_solved : gmap Z nat;
  topic_solved : gmap string nat
}.

Definition init : t :=
  mk 0 0 ∅ ∅ ∅ ∅ ∅ ∅ ∅ ∅.
End L.

(** [if rating: difficulty_solved[rating] += 1]; [None] and [0] are falsy. *)
Definition count_rating (rating : option Z) (difficulty_solved : gmap Z nat)
  : gmap Z nat :=
  match rating with
  | Some r => if (r =? 0)%Z then difficulty_solved else incr r difficulty_solved
  | None => difficulty_solved
  end.

(** [for tag in tags: topic_solved[tag] += 1] *)
Definition count_tags (tags : list string) (topic_solved : gmap string nat)
  : gmap string nat :=
  foldl (fun c tag => incr tag c) topic_solved tags.

(** One iteration of [for sub in submissions]. *)
Definition stats_body (st : L.t) (sub : submission) : result L.t :=
  problem ← subscript "problem" (problem sub);
  let contest_id := contestId problem in
  let problem_index := index problem in
  let problem_id := (contest_id, problem_index) in
  let attempted_problems := {[problem_id]} ∪ L.attempted_problems st in
  let contests_participated := {[contest_id]} ∪ L.contests_participated st in
  let verdict := default "UNKNOWN" (verdict sub) in
  let verdict_counter := incr verdict (L.verdict_counter st) in
  if String.eqb verdict "OK" then
    let first_time :=
      bool_decide (L.problem_first_submission st !! problem_id = None) in
    let rating := rating problem in
    let tags := default [] (tags problem) in
    mret (L.mk
      (S (L.accepted_count st))
      (L.wrong_answer_count st)
      verdict_counter
      attempted_problems
      ({[problem_id]} ∪ L.solved_problems st)
      (if first_time then {[problem_id]} ∪ L.first_attempt_solved st
       else L.first_attempt_solved st)
      (if first_time then <[problem_id := verdict]> (L.problem_first_submission st)
       else L.problem_first_submission st)
      contests_participated
      (count_rating rating (L.difficulty_solved st))
      (count_tags tags (L.topic_solved st)))
  else
    let first_time :=
      bool_decide (L.problem_first_submission st !! problem_id = None) in
    mret (L.mk
      (L.accepted_count st)
      (if String.eqb verdict "WRONG_ANSWER" then S (L.wrong_answer_count st)
       else L.wrong_answer_count st)
      verdict_counter
      attempted_problems
      (L.solved_problems st)
      (L.first_attempt_solved st)
      (if first_time then <[problem_id := verdict]> (L.problem_first_submission st)
       else L.problem_first_submission st)
      contests_participated
      (L.difficulty_solved st)
      (L.topic_solved st)).

(** [problem_attempts[pid] += 1] on a [defaultdict(int)]; a dict keeps its
    keys in the order of their first insertion. *)
Fixpoint bump (pid : ProblemID) (d : list (ProblemID * nat))
  : list (ProblemID * nat) :=
  match d with
  | [] => [(pid, 1)]
  | (k, c) :: d' =>
      if bool_decide (k = pid) then (k, S c) :: d' else (k, c) :: bump pid d'
  end.

(** One iteration of the second loop. *)
Definition attempts_body (problem_attempts : list (ProblemID * nat))
    (sub : submission) : result (list (ProblemID * nat)) :=
  p1 ← subscript "problem" (problem sub);
  p2 ← subscript "problem" (problem sub);
  let pid := (contestId p1, index p2) in
  mret (bump pid problem_attempts).

(** [str] of the components of a ProblemID. *)
Definition str_int (o : option Z) : string :=
  match o with Some n => pretty n | None => "None" end.
Definition str_str (o : option string) : string :=
  match o with Some s => s | None => "None" end.

Definition format_problem (pid : ProblemID) : string :=
  str_int pid.1 +:+ "-" +:+ str_str pid.2.

(** The returned dict. *)
Record stats : Type := {
  total_submissions : nat;
  accepted_count : nat;
  wrong_answer_count : nat;
  unique_attempted : nat;
  unique_solved : nat;
  problem_solving_rate : Float64.float;
  contests_participated : nat;
  first_attempt_solved : nat;
  verdict_counter : gmap string nat;
  most_attempted_problems : list string;
  max_attempts : nat;
  difficulty_solved : gmap Z nat;
  topic_solved : gmap string nat
}.

Definition calculate_stats (submissions : list submission) : result stats :=
  let total_submissions := length submissions in
  st ← for_each stats_body submissions L.init;
  let unique_attempted := size (L.attempted_problems st) in
  let unique_solved := size (L.solved_problems st) in
  problem_solving_rate ←
    (if (unique_attempted =? 0)%nat then mret 0%Q
     else
       q ← truediv (Z.of_nat unique_solved) (Z.of_nat unique_attempted);
       mret (Float64.round2 (Float64.mul q (Float64.of_Z 100))));
  problem_attempts ← for_each attempts_body submissions [];
  let max_attempts := foldr Nat.max 0%nat (problem_attempts.*2) in
  let most_attempted_problems :=
    (filter (fun pc => pc.2 = max_attempts) problem_attempts).*1 in
  mret {|
    total_submissions := total_submissions;
    accepted_count := L.accepted_count st;
    wrong_answer_count := L.wrong_answer_count st;
    unique_attempted := unique_attempted;
    unique_solved := unique_solved;
    problem_solving_rate := problem_solving_rate;
    contests_participated := size (L.contests_participated st);
    first_attempt_solved := size (L.first_attempt_solved st);
    verdict_counter := L.verdict_counter st;
    most_attempted_problems := format_problem <$> most_attempted_problems;
    max_attempts := max_attempts;
    difficulty_solved := L.difficulty_solved st;
    topic_solved := L.topic_solved st
  |}.

(** ** [analyze_contests] *)

(** [needle in hay] on strings. *)
Fixpoint contains (needle hay : string) : bool :=
  String.prefix needle hay ||
  match hay with
  | EmptyString => false
  | String _ hay' => contains needle hay'
  end.

(** The [if]/[elif] chain on the contest name. *)
Definition division_of (contest_name : string) : string :=
  if contains "Div. 1" contest_name then "Div. 1"
  else if contains "Div. 2" contest_name then "Div. 2"
  else if contains "Div. 3" contest_name then "Div. 3"
  else "Other".

(** The variables of the loop. *)
Module A.
Record t : Type := mk {
  best_rank_by_division : gmap string Z;
  highest_rating : Z;
  best_rank_overall : option Z
}.

Definition init : t := mk ∅ 0 None.
End A.

(** [if division not in d or rank < d[division]: d[division] = rank] *)
Definition record_rank (d : gmap string Z) (division : string) (rank : Z)
  : gmap string Z :=
  match d !! division with
  | None => <[division := rank]> d
  | Some best => if (rank <? best)%Z then <[division := rank]> d else d
  end.

(** [if best is None or rank < best: best = rank] *)
Definition record_overall (best : option Z) (rank : Z) : option Z :=
  match best with
  | None => Some rank
  | Some b => if (rank <? b)%Z then Some rank else best
  end.

(** One iteration of [for entry in rating_changes]. *)
Definition contests_body (st : A.t) (entry : rating_change) : result A.t :=
  contest_name ← subscript "contestName" (contestName entry);
  rank ← subscript "rank" (rank entry);
  new_rating ← subscript "newRating" (newRating entry);
  let highest_rating := Z.max (A.highest_rating st) new_rating in
  let division := division_of contest_name in
  mret (A.mk
    (record_rank (A.best_rank_by_division st) division rank)
    highest_rating
    (record_overall (A.best_rank_overall st) rank)).

(** The returned dict. *)
Record contest_stats : Type := {
  total_contests : nat;
  contests_skipped : string;
  best_rank_by_division : gmap string Z;
  highest_rating : Z;
  best_rank_overall : option Z
}.

Definition analyze_contests (rating_changes : list rating_change)
  : result contest_stats :=
  let total_contests := length rating_changes in
  let contests_skipped := "Not Available" in
  st ← for_each contests_body rating_changes A.init;
  mret {|
    total_contests := total_contests;
    contests_skipped := contests_skipped;
    best_rank_by_division := A.best_rank_by_division st;
    highest_rating := A.highest_rating st;
    best_rank_overall := A.best_rank_overall st
  |}.

(** ** [get_user_global_country_rank] *)

(** Python's [str.lower] is a built-in of the language, not code of this
    repository, and it follows Unicode (the Kelvin sign U+212A lowers to
    [k], as [K] does). It is a parameter of the embedding: the functions of
    this section take it as [lower], and what is proved of them holds for
    every function, that of Python among them. *)
Section rank_resolver.
Context (lower : string -> string).

(** [handle.lower()] where [handle] came from [user_info.get]: [None] has no
    such method. *)
Definition lower_of (handle : option string) : result string :=
  match handle with
  | Some h => Ok (lower h)
  | None => Raise AttributeError
  end.

(** [for i, u in enumerate(users): if u['handle'].lower() == handle.lower():
    found = i + 1; break], with [i] the index of the head of [users]. The
    result is the value of the variable after the loop. *)
Fixpoint scan_rank (handle : option string) (users : list rated_user) (i : Z)
  : result (option Z) :=
  match users with
  | [] => Ok None
  | u :: users' =>
      h ← subscript "handle" (ru_handle u);
      let l := lower h in
      r ← lower_of handle;
      if String.eqb l r then Ok (Some (i + 1)%Z)
      else scan_rank handle users' (i + 1)%Z
  end.

(** [round(100 * (1 - (rank - 1) / population), 2) if rank else None] *)
Definition percentile (rank : option Z) (population : nat)
  : result (option Float64.float) :=
  match rank with
  | None => Ok None
  | Some r =>
      if (r =? 0)%Z then Ok None
      else
        q ← truediv (r - 1) (Z.of_nat population);
        mret (Some (Float64.round2
          (Float64.mul (Float64.of_Z 100) (Float64.sub (Float64.of_Z 1) q))))
  end.

(** The returned dict. *)
Record rank_stats : Type := {
  global_rank : option Z;
  global_percentile : option Float64.float;
  country_rank : option Z;
  country_percentile : option Float64.float;
  country : option string
}.

Definition get_user_global_country_rank (user_info : user_info_t)
    (rated_users : list rated_user) : result rank_stats :=
  let country := ui_country user_info in
  let handle := ui_handle user_info in
  let total_users := length rated_users in
  let country_users :=
    filter (fun u => ru_country u = country) rated_users in
  global_rank ← scan_rank handle rated_users 0;
  country_rank ← scan_rank handle country_users 0;
  global_percentile ← percentile global_rank total_users;
  country_percentile ← percentile country_rank (length country_users);
  mret {|
    global_rank := global_rank;
    global_percentile := global_percentile;
    country_rank := country_rank;
    country_percentile := country_percentile;
    country := country
  |}.

End rank_resolver.

(** [str.lower] as it acts on ASCII text, for the sample inputs: [A]-[Z]
    become [a]-[z] and every other character is kept. *)
Definition lower_ascii (c : ascii) : ascii :=
  let n := nat_of_ascii c in
  if (65 <=? n)%nat && (n <=? 90)%nat then ascii_of_nat (n + 32) else c.

Fixpoint ascii_lower (s : string) : string :=
  match s with
  | EmptyString => EmptyString
  | String c s' => String (lower_ascii c) (ascii_lower s')
  end.

(** ** Vocabulary of the statements *)

Definition has_problem (sub : submission) : Prop := is_Some (problem sub).
Definition no_problem (sub : submission) : Prop := problem sub = None.

(** The verdict a submission is tallied under. *)
Definition tallied_as (v : string) (sub : submission) : Prop :=
  match verdict sub with
  | Some w => w = v
  | None => v = "UNKNOWN"
  end.

#[global] Instance tallied_as_dec v sub : Decision (tallied_as v sub).
Proof. unfold tallied_as. destruct (verdict sub); apply _. Defined.

Definition accepted (sub : submission) : Prop := tallied_as "OK" sub.

#[global] Instance accepted_dec sub : Decision (accepted sub).
Proof. unfold accepted. apply _. Defined.

(** The key a problem is filed under: a component that is absent from the
    record is [None] in the key. *)
Definition problem_id (p : problem_t) : ProblemID := (contestId p, index p).

(** The problems of the submissions that carry one, in input order. *)
Definition problems (subs : list submission) : list problem_t :=
  omap problem subs.

Definition accepted_problems (subs : list submission) : list problem_t :=
  problems (filter accepted subs).

(** How often [x] occurs in [l]. *)
Definition occurrences `{EqDecision A} (x : A) (l : list A) : nat :=
  length (filter (fun y => y = x) l).

(** Accepted submissions whose problem has rating [r]. *)
Definition rated_accepted (r : Z) (subs : list submission) : nat :=
  length (filter (fun p => rating p = Some r) (accepted_problems subs)).

(** Occurrences of [tag] in the tag lists of the accepted submissions. *)
Definition tagged_accepted (tag : string) (subs : list submission) : nat :=
  sum_list_with (fun p => occurrences tag (default [] (tags p)))
    (accepted_problems subs).

(** The entry of a [Counter] key that was incremented [n] times. *)
Definition counted (n : nat) : option nat :=
  match n with O => None | S _ => Some n end.

(** [sum(d.values())] *)
Definition sum_values `{Countable K} (d : gmap K nat) : nat :=
  map_fold (fun _ n acc => (n + acc)%nat) 0%nat d.

(** What the first loop of [calculate_stats] has computed after the
    submissions [l]. *)
Record stats_inv (l : list submission) (st : L.t) : Prop := {
  inv_accepted : L.accepted_count st = length (filter accepted l);
  inv_verdicts : forall v,
    L.verdict_counter st !! v = counted (length (filter (tallied_as v) l));
  inv_sum : sum_values (L.verdict_counter st) = length l;
  inv_attempted :
    L.attempted_problems st = list_to_set (problem_id <$> problems l);
  inv_solved :
    L.solved_problems st = list_to_set (problem_id <$> accepted_problems l);
  inv_solved_attempted : L.solved_problems st ⊆ L.attempted_problems st;
  inv_first : L.first_attempt_solved st ⊆ L.solved_problems st;
  inv_contests :
    L.contests_participated st = list_to_set (contestId <$> problems l);
  inv_difficulty : forall r,
    L.difficulty_solved st !! r =
    if decide (r = 0%Z) then None else counted (rated_accepted r l);
  inv_topics : forall t,
    L.topic_solved st !! t = counted (tagged_accepted t l)
}.

(** How the returned dict reads the variables of the first loop. *)
Record returns (subs : list submission) (loc : L.t) (st : stats) : Prop := {
  ret_total : total_submissions st = length subs;
  ret_accepted : accepted_count st = L.accepted_count loc;
  ret_attempted : unique_attempted st = size (L.attempted_problems loc);
  ret_solved : unique_solved st = size (L.solved_problems loc);
  ret_rate :
    problem_solving_rate st =
    if (unique_attempted st =? 0)%nat then 0%Q
    else Float64.round2 (Float64.mul
           (Float64.div_int (Z.of_nat (unique_solved st))
                            (Z.of_nat (unique_attempted st)))
           (Float64.of_Z 100));
  ret_contests :
    contests_participated st = size (L.contests_participated loc);
  ret_first : first_attempt_solved st = size (L.first_attempt_solved loc);
  ret_verdicts : verdict_counter st = L.verdict_counter loc;
  ret_difficulty : difficulty_solved st = L.difficulty_solved loc;
  ret_topics : topic_solved st = L.topic_solved loc
}.

(** [needle] occurs in [hay]. *)
Definition occurs_in (needle hay : string) : Prop :=
  exists pre post, hay = pre +:+ needle +:+ post.

(** The division of a contest name as the specification words it: the
    first of "Div. 1", "Div. 2", "Div. 3" that occurs in the name, and
    "Other" when none does. *)
Inductive classified (name : string) : string -> Prop :=
  | classified_div1 :
      occurs_in "Div. 1" name -> classified name "Div. 1"
  | classified_div2 :
      ~ occurs_in "Div. 1" name -> occurs_in "Div. 2" name ->
      classified name "Div. 2"
  | classified_div3 :
      ~ occurs_in "Div. 1" name -> ~ occurs_in "Div. 2" name ->
      occurs_in "Div. 3" name -> classified name "Div. 3"
  | classified_other :
      ~ occurs_in "Div. 1" name -> ~ occurs_in "Div. 2" name ->
      ~ occurs_in "Div. 3" name -> classified name "Other".

(** A rating change with its three keys. *)
Definition complete (entry : rating_change) : Prop :=
  is_Some (contestName entry) /\ is_Some (rank entry) /\
  is_Some (newRating entry).

Definition a_rating_change (name : string) (r new_rating : Z) : rating_change :=
  {| contestName := Some name; rank := Some r; newRating := Some new_rating |}.

(** A rated user that has a handle. *)
Definition named (u : rated_user) : Prop := is_Some (ru_handle u).

(** The user's handle is [h], up to case: the two have the same
    [str.lower()], which is the comparison the code makes. *)
Definition matches (lower : string -> string) (h : string) (u : rated_user)
  : Prop :=
  exists h', ru_handle u = Some h' /\ lower h' = lower h.

(** The user has a handle, which is not [h], even up to case: the two have
    different [str.lower()]. *)
Definition differs (lower : string -> string) (h : string) (u : rated_user)
  : Prop :=
  exists h', ru_handle u = Some h' /\ lower h' <> lower h.

(** [rank] is found and is a position of a list of [n] users. *)
Definition position_in (n : nat) (rank : option Z) : Prop :=
  match rank with
  | Some r => (1 <= r <= Z.of_nat n)%Z
  | None => True
  end.

(** The percentile of a rank that is found lies in [[0, 100]]. *)
Definition percentile_in_range (p : option Float64.float) : Prop :=
  match p with
  | Some x => (0 <= x <= 100)%Q
  | None => True
  end.

(** *** Sample inputs *)

Definition a_problem (contest : Z) (idx : string) (r : option Z)
    (tgs : list string) : problem_t :=
  {| contestId := Some contest; index := Some idx;
     rating := r; tags := Some tgs |}.

Definition a_submission (p : problem_t) (v : string) : submission :=
  {| problem := Some p; verdict := Some v |}.

(** Problem 1-A accepted, then rejected, and problem 2-B rejected. *)
Definition three_submissions : list submission :=
  [ a_submission (a_problem 1 "A" (Some 800%Z) ["dp"]) "OK";
    a_submission (a_problem 1 "A" (Some 800%Z) ["dp"]) "WRONG_ANSWER";
    a_submission (a_problem 2 "B" None []) "WRONG_ANSWER" ].

(** One problem accepted twice. *)
Definition accepted_twice : list submission :=
  [ a_submission (a_problem 1 "A" (Some 800%Z) ["dp"; "math"]) "OK";
    a_submission (a_problem 1 "A" (Some 800%Z) ["dp"; "math"]) "OK" ].

(** A record with no [problem]. *)
Definition without_problem : submission :=
  {| problem := None; verdict := Some "OK" |}.

(** A record whose problem has an index and no contestId. *)
Definition without_contestId : submission :=
  {| problem := Some {| contestId := None; index := Some "A";
                        rating := None; tags := None |};
     verdict := Some "OK" |}.

(** An accepted submission to a problem of rating 0. *)
Definition rated_zero : submission :=
  a_submission (a_problem 1 "A" (Some 0%Z) []) "OK".

(** 160 problems, one submission each, the first 23 of them accepted. *)
Definition nth_submission (solved i : nat) : submission :=
  a_submission (a_problem (Z.of_nat i) "A" None [])
    (if (i <? solved)%nat then "OK" else "WRONG_ANSWER").

Definition solved_23_of_160 : list submission :=
  nth_submission 23 <$> seq 0 160.

(** The scenario of the specification: two Div. 2 rounds. *)
Definition two_rounds : list rating_change :=
  [ a_rating_change "Div. 2 Round" 500 1400;
    a_rating_change "Div. 2 Round 2" 200 1500 ].

Definition a_user (h : string) (c : option string) : rated_user :=
  {| ru_handle := Some h; ru_country := c |}.

Definition three_users : list rated_user :=
  [ a_user "Alice" (Some "BD"); a_user "tourist" None;
    a_user "Bob" (Some "BD") ].

Definition bob : user_info_t :=
  {| ui_country := Some "BD"; ui_handle := Some "bob" |}.

Definition carol : user_info_t :=
  {| ui_country := Some "BD"; ui_handle := Some "carol" |}.

(** A target without a handle. *)
Definition nobody : user_info_t :=
  {| ui_country := Some "BD"; ui_handle := None |}.

(** Agreement of [(s / a) * 100] in [Float64] and in the kernel. *)
Definition agrees_on (s a : nat) : bool :=
  match
    Float64.of_prim
      (PrimFloat.mul
         (PrimFloat.div (Float64.prim_of_Z (Z.of_nat s))
                        (Float64.prim_of_Z (Z.of_nat a)))
         (Float64.prim_of_Z 100))
  with
  | Some q =>
      Qeq_bool q (Float64.mul (Float64.div_int (Z.of_nat s) (Z.of_nat a))
                              (Float64.of_Z 100))
  | None => false
  end.

(** Agreement of [100 * (1 - (r - 1) / n)] in [Float64] and in the kernel. *)
Definition agrees_on_percentile (r n : nat) : bool :=
  match
    Float64.of_prim
      (PrimFloat.mul (Float64.prim_of_Z 100)
         (PrimFloat.sub (Float64.prim_of_Z 1)
            (PrimFloat.div (Float64.prim_of_Z (Z.of_nat r - 1))
                           (Float64.prim_of_Z (Z.of_nat n)))))
  with
  | Some q =>
      Qeq_bool q
        (Float64.mul (Float64.of_Z 100)
           (Float64.sub (Float64.of_Z 1)
              (Float64.div_int (Z.of_nat r - 1) (Z.of_nat n))))
  | None => false
  end.

(** The rate as the specification words it:
    [round(100 * unique_solved / unique_attempted, 2)]. *)
Definition rate_as_specified (unique_solved unique_attempted : nat)
  : Float64.float :=
  Float64.round2
    (Float64.div_int (100 * Z.of_nat unique_solved) (Z.of_nat unique_attempted)).

(** The contestId values of the submissions, as the count of contests is
    worded: the contestId of every problem that has one. *)
Definition contest_ids (subs : list submission) : gset Z :=
  list_to_set (omap contestId (problems subs)).

(** The problem of some submission has no contestId. *)
Definition lacks_contestId (subs : list submission) : bool :=
  existsb (fun p => match contestId p with None => true | Some _ => false end)
    (problems subs).

(** A record without contestId, then a record of contest 5. *)
Definition with_and_without_contestId : list submission :=
  [ without_contestId; a_submission (a_problem 5 "A" None []) "OK" ].

(** ** Further vocabulary: submissions *)

Definition wrong_answer (sub : submission) : Prop :=
  tallied_as "WRONG_ANSWER" sub.

#[global] Instance wrong_answer_dec sub : Decision (wrong_answer sub).
Proof. unfold wrong_answer. apply _. Defined.

(** The ProblemID a submission is filed under, when it has a problem. *)
Definition pid_of (sub : submission) : option ProblemID :=
  problem_id <$> problem sub.

(** The ProblemIDs of a list of submissions, in input order. *)
Definition pids (subs : list submission) : list ProblemID :=
  problem_id <$> problems subs.

(** [sub] is the first submission of [l] to the problem [pid]. *)
Definition first_submission (pid : ProblemID) (sub : submission)
    (l : list submission) : Prop :=
  exists pre post,
    l = pre ++ sub :: post /\ pid_of sub = Some pid /\
    Forall (fun s => pid_of s <> Some pid) pre.

(** The verdict the first submission of [l] to [pid] is tallied under. *)
Fixpoint first_verdict (pid : ProblemID) (l : list submission)
  : option string :=
  match l with
  | [] => None
  | sub :: l' =>
      if decide (pid_of sub = Some pid)
      then Some (default "UNKNOWN" (verdict sub))
      else first_verdict pid l'
  end.

(** The number of submissions of [l] to the problem [pid]. *)
Definition attempts (pid : ProblemID) (l : list submission) : nat :=
  length (filter (fun s => pid_of s = Some pid) l).

(** A list without its repetitions, every element at its first place. *)
Fixpoint first_seen `{EqDecision A} (l : list A) : list A :=
  match l with
  | [] => []
  | x :: l' => x :: filter (fun y => y <> x) (first_seen l')
  end.

(** What else the first loop of [calculate_stats] has computed after the
    submissions [l]. *)
Record stats_inv_more (l : list submission) (st : L.t) : Prop := {
  inv_wrong : L.wrong_answer_count st = length (filter wrong_answer l);
  inv_first_submission : forall pid,
    L.problem_first_submission st !! pid = first_verdict pid l;
  inv_first_solved : forall pid,
    pid ∈ L.first_attempt_solved st <-> first_verdict pid l = Some "OK"
}.

(** How the returned dict reads the rest of the variables. *)
Record returns_more (subs : list submission) (loc : L.t) (st : stats)
  : Prop := {
  ret_wrong : wrong_answer_count st = L.wrong_answer_count loc;
  ret_max :
    max_attempts st =
    foldr Nat.max 0%nat
      ((fun pid => attempts pid subs) <$> first_seen (pids subs));
  ret_most :
    most_attempted_problems st =
    format_problem <$>
      filter (fun pid => attempts pid subs = max_attempts st)
        (first_seen (pids subs))
}.

(** *** Further sample inputs *)

(** Two rejected submissions. *)
Definition all_rejected : list submission :=
  [ a_submission (a_problem 1 "A" None []) "WRONG_ANSWER";
    a_submission (a_problem 2 "B" None []) "TIME_LIMIT_EXCEEDED" ].

(** ** Further vocabulary: rating changes *)

(** The ranks and the new ratings of the entries that have one. *)
Definition ranks (l : list rating_change) : list Z := omap rank l.
Definition ratings (l : list rating_change) : list Z := omap newRating l.

(** The entry's contest name is classified as division [d]. *)
Definition in_division (d : string) (entry : rating_change) : Prop :=
  division_of <$> contestName entry = Some d.

#[global] Instance in_division_dec d entry : Decision (in_division d entry).
Proof. unfold in_division. apply _. Defined.

(** The ranks of the entries of division [d]. *)
Definition ranks_in (d : string) (l : list rating_change) : list Z :=
  ranks (filter (in_division d) l).

(** [m] is the least element of [xs]. *)
Definition is_minimum (m : Z) (xs : list Z) : Prop :=
  m ∈ xs /\ forall x, x ∈ xs -> (m <= x)%Z.

(** The four division labels. *)
Definition division_labels : list string :=
  ["Div. 1"; "Div. 2"; "Div. 3"; "Other"].

(** The first key an entry lacks, in the order the loop reads them. *)
Definition first_missing (entry : rating_change) : string :=
  match contestName entry, rank entry with
  | None, _ => "contestName"
  | Some _, None => "rank"
  | Some _, Some _ => "newRating"
  end.

(** What the loop of [analyze_contests] has computed after the entries
    [l]. *)
Record contests_inv (l : list rating_change) (st : A.t) : Prop := {
  inv_highest_nonneg : (0 <= A.highest_rating st)%Z;
  inv_highest_bound : forall x, x ∈ ratings l -> (x <= A.highest_rating st)%Z;
  inv_highest_attained :
    A.highest_rating st = 0%Z \/ A.highest_rating st ∈ ratings l;
  inv_overall :
    match A.best_rank_overall st with
    | Some m => is_minimum m (ranks l)
    | None => l = []
    end;
  inv_division : forall d,
    match A.best_rank_by_division st !! d with
    | Some m => is_minimum m (ranks_in d l)
    | None => ranks_in d l = []
    end
}.

(** An entry without its rank. *)
Definition unranked_round : rating_change :=
  {| contestName := Some "Div. 3 Round"; rank := None;
     newRating := Some 1300%Z |}.

(** Two rounds that lost rating points below zero. *)
Definition negative_rounds : list rating_change :=
  [ a_rating_change "Educational Round" 900 (-20);
    a_rating_change "Div. 1 Round" 700 (-5) ].

(** ** Further vocabulary: rated users *)

(** [[u for u in rated_users if u.get("country") == country]] *)
Definition country_users (country : option string)
    (rated_users : list rated_user) : list rated_user :=
  filter (fun u => ru_country u = country) rated_users.

(** A user without a handle. *)
Definition nameless : rated_user :=
  {| ru_handle := None; ru_country := Some "BD" |}.

Definition bob_upper : user_info_t :=
  {| ui_country := Some "BD"; ui_handle := Some "BOB" |}.

Definition alice : user_info_t :=
  {| ui_country := Some "BD"; ui_handle := Some "alice" |}.

(** ** [cached_fetch] and the fetch functions

    The module-level dict [cache] is passed in and returned; the value of
    [time.time()] and what the network answers are inputs; the log records
    are returned in order. *)

Inductive level : Type := INFO | ERROR.

Section fetch.

(** The JSON value under the key "result". *)
Context {data : Type}.

(** What the three calls in the [try] block come to: an exception [e]
    raised by [requests.get], [raise_for_status] or [r.json()], given by
    [str(e)], or the decoded object, given by its keys "status", "comment"
    and "result". *)
Inductive response : Type :=
  | Failure (message : string)
  | Body (status comment : option string) (result : option data).

Record fetched : Type := {
  returned : option data * option string;
  cache_after : gmap string (data * Float64.float);
  logged : list (level * string)
}.

(** [x < n] for a float and an int. *)
Definition float_lt_int (x : Float64.float) (n : Z) : bool :=
  match (x ?= inject_Z n)%Q with Lt => true | _ => false end.

(** The [except Exception as e] clause. *)
Definition fetch_failed (url : string) (e : string)
    (cache : gmap string (data * Float64.float))
    (log : list (level * string)) : fetched :=
  {| returned := (None, Some e);
     cache_after := cache;
     logged := log ++ [(ERROR, "Error fetching URL " +:+ url +:+ ": " +:+ e)]
  |}.

(** From the comment [# Fetch fresh] on. A missing key raises [KeyError],
    whose [str] is the key in quotes. *)
Definition fetch_fresh (url : string) (now : Float64.float) (r : response)
    (cache : gmap string (data * Float64.float))
    (log : list (level * string)) : fetched :=
  let log := log ++ [(INFO, "Fetching URL: " +:+ url)] in
  match r with
  | Failure e => fetch_failed url e cache log
  | Body None _ _ => fetch_failed url "'status'" cache log
  | Body (Some status) comment result =>
      if negb (String.eqb status "OK") then
        {| returned := (None, Some (default "API error" comment));
           cache_after := cache;
           logged := log |}
      else
        match result with
        | None => fetch_failed url "'result'" cache log
        | Some res =>
            {| returned := (Some res, None);
               cache_after := <[url := (res, now)]> cache;
               logged := log |}
        end
  end.

Definition cached_fetch (url : string) (expiry : Z) (now : Float64.float)
    (r : response) (cache : gmap string (data * Float64.float)) : fetched :=
  match cache !! url with
  | Some (data, timestamp) =>
      if float_lt_int (Float64.sub now timestamp) expiry then
        {| returned := (Some data, None);
           cache_after := cache;
           logged := [(INFO, "Cache hit for URL: " +:+ url)] |}
      else
        fetch_fresh url now r cache
          [(INFO, "Cache expired for URL: " +:+ url)]
  | None => fetch_fresh url now r cache []
  end.

Definition fetch_json (url : string) := cached_fetch url 60.

End fetch.

Definition CF_API_BASE : string := "https://codeforces.com/api".

(** The URLs the four fetch functions build. *)
Definition user_info_url (handle : string) : string :=
  CF_API_BASE +:+ "/user.info?handles=" +:+ handle.
Definition user_status_url (handle : string) : string :=
  CF_API_BASE +:+ "/user.status?handle=" +:+ handle +:+ "&from=1&count=100000".
Definition user_rating_url (handle : string) : string :=
  CF_API_BASE +:+ "/user.rating?handle=" +:+ handle.
Definition rated_users_url : string :=
  CF_API_BASE +:+ "/user.ratedList?activeOnly=true".

Definition fetch_user_info {data} (handle : string) :=
  fetch_json (data := data) (user_info_url handle).
Definition fetch_user_submissions {data} (handle : string) :=
  fetch_json (data := data) (user_status_url handle).
Definition fetch_user_rating {data} (handle : string) :=
  fetch_json (data := data) (user_rating_url handle).
Definition fetch_rated_users {data} :=
  fetch_json (data := data) rated_users_url.

(** The entry of [url] is absent or has expired at time [now]. *)
Definition stale {data} (cache : gmap string (data * Float64.float))
    (url : string) (expiry : Z) (now : Float64.float) : Prop :=
  match cache !! url with
  | Some (_, timestamp) =>
      float_lt_int (Float64.sub now timestamp) expiry = false
  | None => True
  end.

(** ** The best contest position of [get_stats] *)

(** [entry.get('rank', float('inf'))] *)
Inductive rank_or_inf : Type :=
  | Finite (r : Z)
  | Infinity.

Definition rank_or_inf_of (entry : rating_change) : rank_or_inf :=
  match rank entry with Some r => Finite r | None => Infinity end.

(** [b < a] *)
Definition rank_lt (b a : rank_or_inf) : bool :=
  match b, a with
  | Finite x, Finite y => (x <? y)%Z
  | Finite _, Infinity => true
  | Infinity, _ => false
  end.

(** [min] of a non-empty sequence: the first of the least elements. *)
Definition min_from (first : rank_or_inf) (others : list rank_or_inf)
  : rank_or_inf :=
  foldl (fun best x => if rank_lt x best then x else best) first others.

(** A rank, or the label "N/A". *)
Inductive position : Type :=
  | Position (r : Z)
  | NotAvailable.

(** Lines 258 to 262 of [get_stats]. *)
Definition best_contest_position (rating_changes : list rating_change)
  : position :=
  let best_contest_position :=
    match rating_changes with
    | [] => None
    | entry :: entries =>
        Some (min_from (rank_or_inf_of entry) (rank_or_inf_of <$> entries))
    end in
  match best_contest_position with
  | None | Some Infinity => NotAvailable
  | Some (Finite r) => Position r
  end.

(** *** Sample inputs *)

Definition sample_cache : gmap string (nat * Float64.float) :=
  {[ user_rating_url "bob" := (7, 1000%Q) ]}.

(** The four kinds of request, and the URL each is fetched from. *)
Inductive request : Type :=
  | UserInfo (handle : string)
  | UserStatus (handle : string)
  | UserRating (handle : string)
  | RatedList.

Definition url_of (req : request) : string :=
  match req with
  | UserInfo handle => user_info_url handle
  | UserStatus handle => user_status_url handle
  | UserRating handle => user_rating_url handle
  | RatedList => rated_users_url
  end.

(** A rating history in which one entry has no rank. *)
Definition mixed_rounds : list rating_change :=
  [ unranked_round; a_rating_change "Div. 2 Round" 500 1400 ].

(** * Properties *)

(** ** Rounding to a double *)

Section Float64_facts.
Import Float64.
Local Open Scope Z_scope.

(** Rounding to the nearest integer stays below an integer bound. *)
Lemma rne_le_int (x : Q) (n : Z) : (x <= inject_Z n)%Q -> rne x <= n.
Proof.
  intros Hx. unfold rne.
  pose proof (Qfloor_le x) as Hf.
  assert (Hfn : Qfloor x <= n).
  { rewrite <- (Qfloor_Z n). now apply Qfloor_resp_le. }
  destruct (Z.eq_dec (Qfloor x) n) as [He | Hne].
  - destruct (Qcompare_spec (x - inject_Z (Qfloor x)) (1 # 2)) as [H | H | H];
      rewrite He in *; [lra | lia | lra].
  - destruct (_ ?= _)%Q; [destruct (Z.even _) | |]; lia.
Qed.

Lemma rne_nonneg (x : Q) : (0 <= x)%Q -> 0 <= rne x.
Proof.
  intros Hx. unfold rne.
  assert (Hf : 0 <= Qfloor x).
  { change 0 with (Qfloor 0). now apply Qfloor_resp_le. }
  destruct (_ ?= _)%Q; [destruct (Z.even _) | |]; lia.
Qed.

Lemma pow2_pos (e : Z) : (0 < pow2 e)%Q.
Proof.
  unfold pow2. destruct (0 <=? e) eqn:He.
  - apply Z.leb_le in He. change 0%Q with (inject_Z 0). rewrite <- Zlt_Qlt.
    now apply Z.pow_pos_nonneg.
  - reflexivity.
Qed.

Lemma pow2_neg_inv (e : Z) : e <= 0 -> (pow2 e * inject_Z (2 ^ (- e)) == 1)%Q.
Proof.
  intros He. unfold pow2. destruct (0 <=? e) eqn:Hb.
  - apply Z.leb_le in Hb. assert (e = 0) by lia. subst. reflexivity.
  - assert (Hp : 0 < 2 ^ (- e)) by (apply Z.pow_pos_nonneg; lia).
    unfold Qeq, Qmult, inject_Z. simpl.
    rewrite Pos.mul_1_r, Z2Pos.id by exact Hp. lia.
Qed.

Lemma ilog2_le (p d : positive) : ilog2 p d <= Z.log2 (Zpos p) - Z.log2 (Zpos d).
Proof. unfold ilog2. destruct (_ <? _); lia. Qed.

(** Up to [2^51] the last place of a double is at most the units. *)
Lemma ulp_exp_nonpos (q : Q) (n : Z) :
  (0 <= q <= inject_Z n)%Q -> n <= 2 ^ 51 -> ulp_exp q <= 0.
Proof.
  intros [H0 Hn] Hbig. unfold ulp_exp.
  destruct q as [[|p|p] d]; simpl; [lia | | ].
  - assert (Hpd : Zpos p <= n * Zpos d).
    { unfold Qle in Hn. simpl in Hn. lia. }
    pose proof (ilog2_le p d) as Hi.
    assert (Hl : Z.log2 (Zpos p) <= Z.log2 (2 ^ 51 * Zpos d)).
    { apply Z.log2_le_mono. nia. }
    rewrite Z.mul_comm, Z.log2_mul_pow2 in Hl by lia. lia.
  - unfold Qle in H0. simpl in H0. lia.
Qed.

(** Rounding to a double keeps a value between 0 and an integer bound,
    both being doubles themselves. *)
Lemma fl_bounded (q : Q) (n : Z) :
  (0 <= q <= inject_Z n)%Q -> n <= 2 ^ 51 -> (0 <= fl q <= inject_Z n)%Q.
Proof.
  intros Hq Hn. pose proof (ulp_exp_nonpos q n Hq Hn) as He.
  unfold fl. rewrite Qred_correct.
  set (e := ulp_exp q) in *.
  pose proof (pow2_pos e) as Hp. pose proof (pow2_neg_inv e He) as Hinv.
  assert (Hpos2 : 0 < 2 ^ (- e)) by (apply Z.pow_pos_nonneg; lia).
  assert (Hq' : (q / pow2 e == q * inject_Z (2 ^ (- e)))%Q).
  { unfold Qdiv. apply Qmult_comp; [reflexivity |].
    apply Qmult_inj_r with (z := pow2 e); [lra |].
    rewrite (Qmult_comm (/ _)), Qmult_inv_r, (Qmult_comm (inject_Z _)) by lra.
    symmetry. exact Hinv. }
  assert (H2 : (0 < inject_Z (2 ^ (- e)))%Q).
  { change 0%Q with (inject_Z 0). now rewrite <- Zlt_Qlt. }
  assert (Hlo : 0 <= rne (q / pow2 e)).
  { apply rne_nonneg. rewrite Hq'. apply Qmult_le_0_compat; lra. }
  assert (Hhi : rne (q / pow2 e) <= n * 2 ^ (- e)).
  { apply rne_le_int. rewrite Hq', inject_Z_mult.
    apply Qmult_le_compat_r; lra. }
  rewrite Zle_Qle in Hlo, Hhi.
  rewrite inject_Z_mult in Hhi.
  split.
  - apply Qmult_le_0_compat; [exact Hlo | lra].
  - apply Qmult_le_compat_r with (z := pow2 e) in Hhi; [| lra].
    rewrite <- Qmult_assoc, (Qmult_comm (inject_Z (2 ^ _))), Hinv in Hhi. lra.
Qed.

Lemma of_Z_100 : of_Z 100 = 100%Q.
Proof. reflexivity. Qed.

Lemma of_Z_1 : of_Z 1 = 1%Q.
Proof. reflexivity. Qed.

(** The operations on values between 0 and 1, as the percentages use
    them. *)
Lemma div_int_unit (a b : Z) :
  0 <= a <= b -> 0 < b -> (0 <= div_int a b <= 1)%Q.
Proof.
  intros Hab Hb. unfold div_int. apply (fl_bounded _ 1); [| lia].
  assert (Hb' : (0 < inject_Z b)%Q).
  { change 0%Q with (inject_Z 0). now rewrite <- Zlt_Qlt. }
  assert (Ha0 : (0 <= inject_Z a)%Q).
  { change 0%Q with (inject_Z 0). rewrite <- Zle_Qle. lia. }
  assert (Hab' : (inject_Z a <= inject_Z b)%Q).
  { rewrite <- Zle_Qle. lia. }
  split.
  - apply Qle_shift_div_l; [exact Hb' | lra].
  - apply Qle_shift_div_r; [exact Hb' | ]. change (inject_Z 1) with 1%Q. lra.
Qed.

Lemma percent_bounded (x : float) :
  (0 <= x <= 1)%Q -> (0 <= mul x (of_Z 100) <= 100)%Q.
Proof.
  intros Hx. rewrite of_Z_100. unfold mul.
  apply (fl_bounded _ 100); [| lia]. change (inject_Z 100) with 100%Q. lra.
Qed.

Lemma percent_bounded_l (x : float) :
  (0 <= x <= 1)%Q -> (0 <= mul (of_Z 100) x <= 100)%Q.
Proof.
  intros Hx. rewrite of_Z_100. unfold mul.
  apply (fl_bounded _ 100); [| lia]. change (inject_Z 100) with 100%Q. lra.
Qed.

Lemma complement_bounded (x : float) :
  (0 <= x <= 1)%Q -> (0 <= sub (of_Z 1) x <= 1)%Q.
Proof.
  intros Hx. rewrite of_Z_1. unfold sub.
  apply (fl_bounded _ 1); [| lia]. change (inject_Z 1) with 1%Q. lra.
Qed.

Lemma round2_bounded (x : float) :
  (0 <= x <= 100)%Q -> (0 <= round2 x <= 100)%Q.
Proof.
  intros Hx. unfold round2.
  assert (Hlo : 0 <= rne (x * 100)) by (apply rne_nonneg; lra).
  assert (Hhi : rne (x * 100) <= 10000).
  { apply rne_le_int. change (inject_Z 10000) with 10000%Q. lra. }
  rewrite Zle_Qle in Hlo, Hhi.
  change (inject_Z 0) with 0%Q in Hlo.
  change (inject_Z 10000) with 10000%Q in Hhi.
  apply (fl_bounded _ 100); [| lia]. change (inject_Z 100) with 100%Q.
  split.
  - apply Qle_shift_div_l; lra.
  - apply Qle_shift_div_r; lra.
Qed.

End Float64_facts.

(** ** The exception monad and the loop *)

Lemma for_each_snoc {S A} (body : S -> A -> result S) l x s :
  for_each body (l ++ [x]) s = s' ← for_each body l s; body s' x.
Proof.
  revert s. induction l as [| y l IH]; intros s; simpl.
  - by destruct (body s x).
  - destruct (body s y) as [s1 | e]; simpl; [apply IH | done].
Qed.

(** ** Counters *)

Lemma lookup_incr `{Countable K} (k j : K) (c : gmap K nat) :
  incr k c !! j =
  if decide (k = j) then Some (S (default 0 (c !! k))) else c !! j.
Proof. unfold incr. by rewrite lookup_insert. Qed.

Lemma default_counted n : default 0 (counted n) = n.
Proof. by destruct n. Qed.

(** An increment adds one to the sum of the values. *)
Lemma sum_values_incr `{Countable K} (k : K) (c : gmap K nat) :
  sum_values (incr k c) = S (sum_values c).
Proof.
  unfold sum_values, incr.
  assert (Hf : forall (j1 j2 : K) (z1 z2 y : nat),
    z1 + (z2 + y) = z2 + (z1 + y)) by (intros; lia).
  destruct (c !! k) as [n |] eqn:Hk; simpl.
  - rewrite <- (insert_delete_eq c k (S n)).
    rewrite map_fold_insert_L; [| by intros; apply Hf | by rewrite lookup_delete_eq].
    rewrite (map_fold_delete_L _ _ k n c); [lia | by intros; apply Hf | done].
  - rewrite map_fold_insert_L; [done | by intros; apply Hf | done].
Qed.

Lemma occurrences_snoc `{EqDecision A} (x y : A) l :
  occurrences x (l ++ [y]) = occurrences x l + (if decide (y = x) then 1 else 0).
Proof.
  unfold occurrences. rewrite filter_app, length_app.
  rewrite filter_cons, filter_nil. by destruct (decide (y = x)).
Qed.

Lemma count_tags_lookup (tgs : list string) (c : gmap string nat) t n :
  c !! t = counted n ->
  count_tags tgs c !! t = counted (n + occurrences t tgs).
Proof.
  revert c n. induction tgs as [| x tgs IH]; intros c n Hc; simpl.
  - by rewrite Nat.add_0_r.
  - unfold occurrences. rewrite filter_cons.
    destruct (decide (x = t)) as [-> | Hne]; simpl.
    + rewrite (IH _ (S n)).
      { unfold occurrences. simpl. by rewrite Nat.add_succ_r. }
      rewrite lookup_incr, decide_True by done.
      by rewrite Hc, default_counted.
    + apply IH. by rewrite lookup_incr, decide_False.
Qed.

(** ** The first loop of [calculate_stats] *)

Lemma tallied_as_default v sub :
  tallied_as v sub <-> default "UNKNOWN" (verdict sub) = v.
Proof. unfold tallied_as. destruct (verdict sub); simpl; split; congruence. Qed.

Lemma filter_snoc {A} (P : A -> Prop) `{forall x, Decision (P x)} l x :
  filter P (l ++ [x]) = filter P l ++ (if decide (P x) then [x] else []).
Proof. rewrite filter_app, filter_cons, filter_nil. done. Qed.

Lemma problems_snoc l sub p :
  problem sub = Some p -> problems (l ++ [sub]) = problems l ++ [p].
Proof. intros Hp. unfold problems. rewrite omap_app. simpl. by rewrite Hp. Qed.

Lemma accepted_problems_snoc l sub p :
  problem sub = Some p ->
  accepted_problems (l ++ [sub]) =
  accepted_problems l ++ (if decide (accepted sub) then [p] else []).
Proof.
  intros Hp. unfold accepted_problems. rewrite filter_snoc.
  destruct (decide (accepted sub)).
  - by apply problems_snoc.
  - by rewrite app_nil_r, app_nil_r.
Qed.


Lemma stats_inv_init : stats_inv [] L.init.
Proof.
  split; simpl; try done.
  intros r. by destruct (decide (r = 0%Z)).
Qed.

Lemma verdicts_step v w l sub (c : gmap string nat) :
  default "UNKNOWN" (verdict sub) = w ->
  (forall v, c !! v = counted (length (filter (tallied_as v) l))) ->
  incr w c !! v = counted (length (filter (tallied_as v) (l ++ [sub]))).
Proof.
  intros Hw Hc. rewrite lookup_incr, filter_snoc, length_app.
  destruct (decide (w = v)) as [-> | Hne].
  - rewrite decide_True by (by apply tallied_as_default).
    rewrite Hc, default_counted. simpl. by rewrite Nat.add_1_r.
  - rewrite decide_False by (by rewrite tallied_as_default, Hw).
    simpl. by rewrite Nat.add_0_r.
Qed.

Lemma difficulty_step r l sub p (c : gmap Z nat) :
  problem sub = Some p -> accepted sub ->
  (forall r, c !! r =
     if decide (r = 0%Z) then None else counted (rated_accepted r l)) ->
  count_rating (rating p) c !! r =
  if decide (r = 0%Z) then None else counted (rated_accepted r (l ++ [sub])).
Proof.
  intros Hp Hacc Hc. unfold rated_accepted.
  rewrite (accepted_problems_snoc _ _ p Hp),
    (decide_True (P := accepted sub)) by done.
  rewrite filter_snoc, length_app. unfold count_rating.
  destruct (rating p) as [q |] eqn:Hq.
  - destruct (Z.eqb_spec q 0) as [-> | Hq0].
    + rewrite Hc. destruct (decide (r = 0%Z)) as [| Hr]; [done |].
      rewrite (decide_False (P := Some 0%Z = Some r)) by congruence.
      simpl. by rewrite Nat.add_0_r.
    + rewrite lookup_incr. destruct (decide (q = r)) as [-> | Hne].
      * rewrite (decide_False (P := r = 0%Z)) by done.
        rewrite (decide_True (P := Some r = Some r)) by done.
        rewrite Hc, decide_False by done. unfold rated_accepted.
        rewrite default_counted. simpl. by rewrite Nat.add_1_r.
      * rewrite Hc. rewrite (decide_False (P := Some q = Some r)) by congruence.
        simpl. by rewrite Nat.add_0_r.
  - rewrite Hc. rewrite (decide_False (P := None = Some r)) by done.
    simpl. by rewrite Nat.add_0_r.
Qed.

Lemma topics_step t l sub p (c : gmap string nat) :
  problem sub = Some p -> accepted sub ->
  (forall t, c !! t = counted (tagged_accepted t l)) ->
  count_tags (default [] (tags p)) c !! t =
  counted (tagged_accepted t (l ++ [sub])).
Proof.
  intros Hp Hacc Hc. unfold tagged_accepted.
  rewrite (accepted_problems_snoc _ _ p Hp),
    (decide_True (P := accepted sub)) by done.
  rewrite sum_list_with_app. simpl.
  rewrite (count_tags_lookup _ _ _ _ (Hc t)). unfold tagged_accepted.
  by rewrite Nat.add_0_r.
Qed.

(** One iteration extends the invariant by one submission. *)
Lemma stats_body_inv l st sub p :
  problem sub = Some p -> stats_inv l st ->
  exists st', stats_body st sub = Ok st' /\ stats_inv (l ++ [sub]) st'.
Proof.
  intros Hp [Hacc Hver Hsum Hatt Hsol Hsa Hfirst Hcon Hdif Htop].
  unfold stats_body. rewrite Hp. simpl.
  set (w := default "UNKNOWN" (verdict sub)).
  assert (Hw : default "UNKNOWN" (verdict sub) = w) by done.
  assert (Hatt' : {[(contestId p, index p)]} ∪ L.attempted_problems st =
                  list_to_set (C := gset ProblemID)
                    (problem_id <$> problems (l ++ [sub]))).
  { rewrite (problems_snoc _ _ p Hp), fmap_app, list_to_set_app_L, Hatt.
    simpl. unfold problem_id. set_solver. }
  assert (Hcon' : {[contestId p]} ∪ L.contests_participated st =
                  list_to_set (C := gset (option Z))
                    (contestId <$> problems (l ++ [sub]))).
  { rewrite (problems_snoc _ _ p Hp), fmap_app, list_to_set_app_L, Hcon.
    simpl. set_solver. }
  destruct (String.eqb_spec w "OK") as [Hok | Hno].
  - assert (Ha : accepted sub) by (by apply tallied_as_default).
    eexists. split; [reflexivity |]. split; simpl.
    + rewrite filter_snoc, decide_True, length_app by done. simpl. lia.
    + intros v. by apply verdicts_step.
    + rewrite sum_values_incr, Hsum, length_app. simpl. lia.
    + done.
    + rewrite (accepted_problems_snoc _ _ p Hp),
        (decide_True (P := accepted sub)) by done.
      rewrite fmap_app, list_to_set_app_L, Hsol. simpl.
      unfold problem_id. set_solver.
    + set_solver.
    + case_bool_decide; set_solver.
    + done.
    + intros r. by apply difficulty_step.
    + intros t. by apply topics_step.
  - assert (Ha : ~ accepted sub) by (unfold accepted; by rewrite tallied_as_default).
    eexists. split; [reflexivity |]. split; simpl.
    + rewrite filter_snoc, decide_False, app_nil_r by done. done.
    + intros v. by apply verdicts_step.
    + rewrite sum_values_incr, Hsum, length_app. simpl. lia.
    + done.
    + rewrite (accepted_problems_snoc _ _ p Hp),
        (decide_False (P := accepted sub)), app_nil_r by done.
      done.
    + set_solver.
    + done.
    + done.
    + intros r. unfold rated_accepted.
      rewrite (accepted_problems_snoc _ _ p Hp),
        (decide_False (P := accepted sub)), app_nil_r by done.
      apply Hdif.
    + intros t. unfold tagged_accepted.
      rewrite (accepted_problems_snoc _ _ p Hp),
        (decide_False (P := accepted sub)), app_nil_r by done.
      apply Htop.
Qed.

Lemma stats_loop_inv l :
  Forall has_problem l ->
  exists st, for_each stats_body l L.init = Ok st /\ stats_inv l st.
Proof.
  induction l as [| sub l IH] using rev_ind; intros Hl.
  - exists L.init. split; [done | apply stats_inv_init].
  - apply Forall_app in Hl as [Hl Hsub].
    apply Forall_singleton in Hsub as [p Hp].
    destruct (IH Hl) as (st & Hrun & Hinv).
    destruct (stats_body_inv l st sub p Hp Hinv) as (st' & Hstep & Hinv').
    exists st'. split; [| done].
    rewrite for_each_snoc, Hrun. simpl. exact Hstep.
Qed.


Lemma stats_body_ok st sub p :
  problem sub = Some p -> exists st', stats_body st sub = Ok st'.
Proof.
  intros Hp. unfold stats_body. rewrite Hp. simpl.
  destruct (String.eqb _ "OK"); eauto.
Qed.

(** The first loop raises exactly when some record has no [problem]. *)
Lemma stats_loop_raise l st :
  Exists no_problem l ->
  for_each stats_body l st = Raise (KeyError "problem").
Proof.
  revert st. induction l as [| sub l IH]; intros st Hex.
  - by apply Exists_nil in Hex.
  - simpl. destruct (problem sub) as [p |] eqn:Hp.
    + destruct (stats_body_ok st sub p Hp) as [st' ->]. simpl.
      apply IH. apply Exists_cons in Hex as [Hhd | Htl]; [| done].
      unfold no_problem in Hhd. congruence.
    + unfold stats_body. by rewrite Hp.
Qed.

Lemma has_problem_cases l :
  Forall has_problem l \/ Exists no_problem l.
Proof.
  induction l as [| sub l [IH | IH]].
  - by left.
  - destruct (problem sub) as [p |] eqn:Hp.
    + left. constructor; [by exists p | done].
    + right. by left.
  - right. by right.
Qed.

Lemma attempts_loop_ok l d :
  Forall has_problem l -> exists d', for_each attempts_body l d = Ok d'.
Proof.
  revert d. induction l as [| sub l IH]; intros d Hl; [by exists d |].
  apply Forall_cons in Hl as [[p Hp] Hl].
  change (for_each attempts_body (sub :: l) d)
    with (d' ← attempts_body d sub; for_each attempts_body l d').
  unfold attempts_body. rewrite Hp. simpl. by apply IH.
Qed.


(** With a [problem] in every record, no step of [calculate_stats]
    raises. *)
Lemma calculate_stats_run subs :
  Forall has_problem subs ->
  exists loc st,
    calculate_stats subs = Ok st /\ stats_inv subs loc /\ returns subs loc st.
Proof.
  intros Hwf.
  destruct (stats_loop_inv subs Hwf) as (loc & Hrun & Hinv).
  destruct (attempts_loop_ok subs [] Hwf) as (d & Hd).
  exists loc. unfold calculate_stats. rewrite Hrun. simpl.
  destruct (size (L.attempted_problems loc) =? 0)%nat eqn:Hz; simpl.
  - rewrite Hd. simpl. eexists. split; [reflexivity |]. split; [done |].
    split; simpl; try done. by rewrite Hz.
  - unfold truediv. apply Nat.eqb_neq in Hz.
    destruct (Z.eqb_spec (Z.of_nat (size (L.attempted_problems loc))) 0)
      as [E | _]; [lia |].
    simpl. rewrite Hd. simpl. eexists. split; [reflexivity |]. split; [done |].
    split; simpl; try done.
    apply Nat.eqb_neq in Hz. by rewrite Hz.
Qed.

Lemma calculate_stats_raise subs :
  Exists no_problem subs -> calculate_stats subs = Raise (KeyError "problem").
Proof.
  intros Hex. unfold calculate_stats.
  by rewrite (stats_loop_raise _ _ Hex).
Qed.

(** The image of a finite set is not larger than the set. *)
Lemma size_set_map_le `{Countable A, Countable B} (f : A -> B) (X : gset A) :
  size (set_map (D := gset B) f X) <= size X.
Proof.
  induction X as [| x X Hx IH] using set_ind_L.
  - by rewrite set_map_empty, !size_empty.
  - rewrite set_map_union_L, set_map_singleton_L.
    rewrite size_union_alt, size_singleton.
    rewrite (size_union {[x]} X), size_singleton by set_solver.
    assert (size (set_map (D := gset B) f X ∖ {[f x]}) <=
            size (set_map (D := gset B) f X)).
    { apply subseteq_size. set_solver. }
    lia.
Qed.

Lemma set_map_list_to_set `{Countable A, Countable B} (f : A -> B) (l : list A) :
  set_map (D := gset B) f (list_to_set (C := gset A) l) = list_to_set (f <$> l).
Proof.
  induction l as [| x l IH]; simpl.
  - by rewrite set_map_empty.
  - by rewrite set_map_union_L, set_map_singleton_L, IH.
Qed.

Lemma size_set_map_inj `{Countable A, Countable B} (f : A -> B)
    `{!Inj (=) (=) f} (X : gset A) :
  size (set_map (D := gset B) f X) = size X.
Proof.
  induction X as [| x X Hx IH] using set_ind_L.
  - by rewrite set_map_empty, !size_empty.
  - rewrite set_map_union_L, set_map_singleton_L.
    rewrite !size_union, !size_singleton, IH; [done | set_solver |].
    intros y Hy1 Hy2. apply elem_of_singleton in Hy1; subst.
    apply elem_of_map in Hy2 as (z & Hz & Hin).
    apply (inj f) in Hz. by subst.
Qed.

(** A set of optional values has one element for each value that is
    present, and one more when [None] is in it. *)
Lemma size_option_values `{Countable A} {B} (f : B -> option A) (l : list B) :
  size (list_to_set (C := gset (option A)) (f <$> l)) =
  size (list_to_set (C := gset A) (omap f l)) +
  (if existsb (fun b => match f b with None => true | Some _ => false end) l
   then 1 else 0).
Proof.
  set (T := list_to_set (C := gset A) (omap f l)).
  set (e := existsb _ l).
  assert (He : e = true <-> None ∈ f <$> l).
  { unfold e. rewrite existsb_exists, list_elem_of_fmap. split.
    - intros (b & Hb%list_elem_of_In & Hf). exists b. by destruct (f b).
    - intros (b & Hf & Hb%list_elem_of_In). exists b. by rewrite <- Hf. }
  assert (Hset : list_to_set (C := gset (option A)) (f <$> l) =
                 set_map Some T ∪ (if e then {[None]} else ∅)).
  { apply set_eq. intros [a |].
    - rewrite elem_of_list_to_set, elem_of_union, elem_of_map.
      unfold T. split.
      + intros (b & Hf & Hb)%list_elem_of_fmap. left. exists a.
        split; [done |]. apply elem_of_list_to_set, list_elem_of_omap.
        by exists b.
      + intros [(a' & [= <-] & (b & Hb & Hf)%elem_of_list_to_set%list_elem_of_omap) | Hn].
        * apply list_elem_of_fmap. by exists b.
        * destruct e; set_solver.
    - rewrite elem_of_list_to_set, elem_of_union, elem_of_map, <- He.
      split.
      + intros ->. right. set_solver.
      + intros [(a' & Hd & _) | Hn]; [done |]. destruct e; set_solver. }
  rewrite Hset, size_union.
  - rewrite (size_set_map_inj Some T).
    destruct e; [by rewrite size_singleton | by rewrite size_empty].
  - apply elem_of_disjoint. intros x (a & -> & _)%elem_of_map Hx.
    destruct e; set_solver.
Qed.

(** ** Properties of [calculate_stats] *)

(** C1, as stated, fails: a record whose problem has no contestId does not
    make [calculate_stats] fail; the record is tallied under the key
    [(None, "A")], shown as ["None-A"]. *)
Lemma calculate_stats_without_contestId :
  calculate_stats [without_contestId] =
  Ok {| total_submissions := 1;
        accepted_count := 1;
        wrong_answer_count := 0;
        unique_attempted := 1;
        unique_solved := 1;
        problem_solving_rate := 100%Q;
        contests_participated := 1;
        first_attempt_solved := 1;
        verdict_counter := {["OK" := 1]};
        most_attempted_problems := ["None-A"];
        max_attempts := 1;
        difficulty_solved := ∅;
        topic_solved := ∅ |}.
Proof. vm_compute. reflexivity. Qed.

(** A record without [problem] stops the function at that record. *)
Example calculate_stats_without_problem :
  calculate_stats (three_submissions ++ [without_problem]) =
  Raise (KeyError "problem").
Proof. reflexivity. Qed.

(** C1 (amended). [calculate_stats] fails exactly when some record has no
    [problem] at all, and then with [KeyError('problem')]. When every record
    has one it succeeds, whether or not contestId and index are present: the
    problems are counted by the key [(contestId, index)] in which an absent
    component is [None]. *)
Theorem calculate_stats_failure (subs : list submission) :
  match calculate_stats subs with
  | Ok st =>
      Forall has_problem subs /\
      unique_attempted st =
        size (list_to_set (C := gset ProblemID) (problem_id <$> problems subs))
  | Raise e => e = KeyError "problem" /\ Exists no_problem subs
  end.
Proof.
  destruct (has_problem_cases subs) as [Hwf | Hex].
  - destruct (calculate_stats_run subs Hwf) as (loc & st & -> & Hinv & Hret).
    split; [done |]. by rewrite (ret_attempted _ _ _ Hret), (inv_attempted _ _ Hinv).
  - by rewrite (calculate_stats_raise subs Hex).
Qed.

(** C2. Every submission is tallied once: the values of [verdict_counter]
    add up to [total_submissions], the entry of a verdict [v] is the number
    of submissions whose verdict is [v] or, for [v = "UNKNOWN"], that have no
    verdict, and [0 <= accepted_count <= total_submissions]. *)
Theorem verdict_tally (subs : list submission) :
  Forall has_problem subs ->
  exists st,
    calculate_stats subs = Ok st /\
    total_submissions st = length subs /\
    sum_values (verdict_counter st) = total_submissions st /\
    (forall v, verdict_counter st !! v =
               counted (length (filter (tallied_as v) subs))) /\
    accepted_count st = length (filter accepted subs) /\
    0 <= accepted_count st <= total_submissions st.
Proof.
  intros Hwf.
  destruct (calculate_stats_run subs Hwf) as (loc & st & Hrun & Hinv & Hret).
  exists st.
  destruct Hinv as [Ia Iv Is _ _ _ _ _ _ _], Hret as [Rt Ra _ _ _ _ _ Rv _ _].
  rewrite Rv, Rt, Ra, Ia.
  repeat split; try done; [lia | apply length_filter].
Qed.

Lemma verdict_tally_witness :
  exists st,
    calculate_stats three_submissions = Ok st /\
    total_submissions st = length three_submissions /\
    sum_values (verdict_counter st) = total_submissions st /\
    (forall v, verdict_counter st !! v =
               counted (length (filter (tallied_as v) three_submissions))) /\
    accepted_count st = length (filter accepted three_submissions) /\
    0 <= accepted_count st <= total_submissions st.
Proof.
  apply (verdict_tally three_submissions).
  repeat constructor; by eexists.
Defined.

(** C3. [first_attempt_solved <= unique_solved <= unique_attempted]. *)
Theorem solved_counts_ordered (subs : list submission) :
  Forall has_problem subs ->
  exists st,
    calculate_stats subs = Ok st /\
    first_attempt_solved st <= unique_solved st <= unique_attempted st.
Proof.
  intros Hwf.
  destruct (calculate_stats_run subs Hwf) as (loc & st & Hrun & Hinv & Hret).
  exists st.
  destruct Hinv as [_ _ _ _ _ Isa If _ _ _], Hret as [_ _ Rat Rs _ _ Rf _ _ _].
  split; [done |]. rewrite Rf, Rs, Rat.
  split; by apply subseteq_size.
Qed.

Lemma solved_counts_ordered_witness :
  exists st,
    calculate_stats three_submissions = Ok st /\
    first_attempt_solved st <= unique_solved st <= unique_attempted st.
Proof.
  apply (solved_counts_ordered three_submissions).
  repeat constructor; by eexists.
Defined.

(** On these inputs the operations of [Float64] return what the kernel's
    binary64 operations return. *)
Example float64_agrees_with_kernel :
  Float64.of_prim
    (PrimFloat.mul
       (PrimFloat.div (Float64.prim_of_Z 23) (Float64.prim_of_Z 160))
       (Float64.prim_of_Z 100)) =
    Some (Float64.mul (Float64.div_int 23 160) (Float64.of_Z 100)) /\
  Float64.of_prim
    (PrimFloat.div (Float64.prim_of_Z 2300) (Float64.prim_of_Z 160)) =
    Some (Float64.div_int 2300 160) /\
  Float64.of_prim
    (PrimFloat.div (Float64.prim_of_Z 1437) (Float64.prim_of_Z 100)) =
    Some (Float64.fl (1437 # 100)) /\
  Float64.of_prim
    (PrimFloat.div (Float64.prim_of_Z 1438) (Float64.prim_of_Z 100)) =
    Some (Float64.fl (1438 # 100)).
Proof. vm_compute. repeat split. Qed.

(** The same for [(s / a) * 100] on every [0 <= s <= a <= 64], [a > 0]. *)
Example float64_agrees_with_kernel_upto_64 :
  forallb (fun a => forallb (fun s => agrees_on s a) (seq 0 (S a))) (seq 1 64)
  = true.
Proof. vm_compute. reflexivity. Qed.

(** And for [100 * (1 - (r - 1) / n)] on every [1 <= r <= n <= 64]. *)
Example float64_agrees_with_kernel_percentile :
  forallb (fun n => forallb (fun r => agrees_on_percentile r n) (seq 1 n))
    (seq 1 64)
  = true.
Proof. vm_compute. reflexivity. Qed.

(** C4, as stated, fails: with 23 of 160 problems solved the code returns
    14.37 (the quotient 23/160 is rounded to a double before it is multiplied
    by 100, which gives 14.374999999999998), where
    [round(100 * 23 / 160, 2)] is 14.38. *)
Lemma rate_23_of_160 :
  exists st,
    calculate_stats solved_23_of_160 = Ok st /\
    unique_solved st = 23 /\
    unique_attempted st = 160 /\
    problem_solving_rate st = Float64.fl (1437 # 100) /\
    rate_as_specified (unique_solved st) (unique_attempted st) =
      Float64.fl (1438 # 100) /\
    problem_solving_rate st <>
      rate_as_specified (unique_solved st) (unique_attempted st).
Proof.
  eexists. split; [vm_compute; reflexivity |].
  vm_compute. repeat split. discriminate.
Qed.

(** In exact arithmetic [100 * 23 / 160] is 14.375, which rounds to 14.38
    as well (ties go to the even last digit). *)
Example rate_23_of_160_exact :
  (100 * 23 / 160 == 14375 # 1000)%Q /\
  Float64.rne ((100 * 23 / 160) * 100) = 1438%Z.
Proof. split; [reflexivity | by vm_compute]. Qed.

(** C4 (amended). [problem_solving_rate] is
    [round((unique_solved / unique_attempted) * 100, 2)], the quotient being
    rounded to a double before the multiplication, when
    [unique_attempted > 0]; it is exactly [0.0] when [unique_attempted = 0];
    and it always lies in [[0, 100]]. *)
Theorem problem_solving_rate_value (subs : list submission) :
  Forall has_problem subs ->
  exists st,
    calculate_stats subs = Ok st /\
    problem_solving_rate st =
      (if (unique_attempted st =? 0)%nat then 0%Q
       else Float64.round2 (Float64.mul
              (Float64.div_int (Z.of_nat (unique_solved st))
                               (Z.of_nat (unique_attempted st)))
              (Float64.of_Z 100))) /\
    (0 <= problem_solving_rate st <= 100)%Q.
Proof.
  intros Hwf.
  destruct (calculate_stats_run subs Hwf) as (loc & st & Hrun & Hinv & Hret).
  exists st.
  destruct Hinv as [_ _ _ _ _ Isa _ _ _ _], Hret as [_ _ Rat Rs Rr _ _ _ _ _].
  split; [done |]. split; [done |]. rewrite Rr.
  destruct (Nat.eqb_spec (unique_attempted st) 0) as [Hz | Hnz]; [lra |].
  apply round2_bounded, percent_bounded, div_int_unit; [| lia].
  apply subseteq_size in Isa. lia.
Qed.

Lemma problem_solving_rate_value_witness :
  exists st,
    calculate_stats three_submissions = Ok st /\
    problem_solving_rate st =
      (if (unique_attempted st =? 0)%nat then 0%Q
       else Float64.round2 (Float64.mul
              (Float64.div_int (Z.of_nat (unique_solved st))
                               (Z.of_nat (unique_attempted st)))
              (Float64.of_Z 100))) /\
    (0 <= problem_solving_rate st <= 100)%Q.
Proof.
  apply (problem_solving_rate_value three_submissions).
  repeat constructor; by eexists.
Defined.

(** C5, as stated, fails: an accepted submission to a problem that carries
    the rating 0 does not increment [difficulty_solved[0]]. *)
Lemma rating_zero_not_counted :
  accepted rated_zero /\
  (rating <$> problem rated_zero) = Some (Some 0%Z) /\
  exists st,
    calculate_stats [rated_zero] = Ok st /\
    difficulty_solved st !! 0%Z = None.
Proof.
  split; [done |]. split; [done |].
  eexists. split; [vm_compute; reflexivity | done].
Qed.

(** C5 (amended). [difficulty_solved[r]], for a rating [r] other than 0, is
    the number of accepted submissions whose problem has rating [r], every
    accepted submission counting and not only the first one of a problem;
    the rating 0 is never counted. [topic_solved[t]] is the number of
    occurrences of [t] in the tag lists of the accepted submissions. A key
    that was never incremented is absent. *)
Theorem difficulty_topic_counts (subs : list submission) :
  Forall has_problem subs ->
  exists st,
    calculate_stats subs = Ok st /\
    (forall r, difficulty_solved st !! r =
               if decide (r = 0%Z) then None
               else counted (rated_accepted r subs)) /\
    (forall t, topic_solved st !! t = counted (tagged_accepted t subs)).
Proof.
  intros Hwf.
  destruct (calculate_stats_run subs Hwf) as (loc & st & Hrun & Hinv & Hret).
  exists st.
  destruct Hinv as [_ _ _ _ _ _ _ _ Id It], Hret as [_ _ _ _ _ _ _ _ Rd Rt].
  rewrite Rd, Rt. done.
Qed.

Lemma difficulty_topic_counts_witness :
  exists st,
    calculate_stats accepted_twice = Ok st /\
    (forall r, difficulty_solved st !! r =
               if decide (r = 0%Z) then None
               else counted (rated_accepted r accepted_twice)) /\
    (forall t, topic_solved st !! t = counted (tagged_accepted t accepted_twice)).
Proof.
  apply (difficulty_topic_counts accepted_twice).
  repeat constructor; by eexists.
Defined.

(** One problem accepted twice contributes two increments. *)
Example accepted_twice_counts :
  exists st,
    calculate_stats accepted_twice = Ok st /\
    unique_solved st = 1 /\
    difficulty_solved st = {[800%Z := 2]} /\
    topic_solved st = {["dp" := 2; "math" := 2]}.
Proof. eexists. split; [vm_compute; reflexivity |]. vm_compute. done. Qed.

(** C10, as stated, fails: a record whose problem has no contestId is
    counted as one more contest. With such a record alone no contestId value
    occurs and [contests_participated] is 1; with one more record, of
    contest 5, one value occurs and [contests_participated] is 2. *)
Lemma contest_counted_without_contestId :
  (exists st,
     calculate_stats [without_contestId] = Ok st /\
     size (contest_ids [without_contestId]) = 0 /\
     contests_participated st = 1) /\
  (exists st,
     calculate_stats with_and_without_contestId = Ok st /\
     size (contest_ids with_and_without_contestId) = 1 /\
     contests_participated st = 2).
Proof.
  split; (eexists; split; [vm_compute; reflexivity |]); by vm_compute.
Qed.

(** C10 (amended). [contests_participated] is the number of distinct
    contestId values over the submissions, plus one when the problem of some
    submission has no contestId ([problem.get('contestId')] is [None] there,
    and [None] is added to the set like any value); it is at most
    [unique_attempted]. *)
Theorem contests_participated_value (subs : list submission) :
  Forall has_problem subs ->
  exists st,
    calculate_stats subs = Ok st /\
    contests_participated st =
      size (contest_ids subs) + (if lacks_contestId subs then 1 else 0) /\
    contests_participated st <= unique_attempted st.
Proof.
  intros Hwf.
  destruct (calculate_stats_run subs Hwf) as (loc & st & Hrun & Hinv & Hret).
  exists st.
  destruct Hinv as [_ _ _ Iat _ _ _ Ic _ _], Hret as [_ _ Rat _ _ Rc _ _ _ _].
  rewrite Rc, Rat, Ic, Iat. split; [done |]. split.
  - apply size_option_values.
  - replace (contestId <$> problems subs)
      with (fst <$> (problem_id <$> problems subs))
      by (rewrite <- list_fmap_compose; done).
    rewrite <- set_map_list_to_set. apply size_set_map_le.
Qed.

Lemma contests_participated_value_witness :
  exists st,
    calculate_stats with_and_without_contestId = Ok st /\
    contests_participated st =
      size (contest_ids with_and_without_contestId) +
      (if lacks_contestId with_and_without_contestId then 1 else 0) /\
    contests_participated st <= unique_attempted st.
Proof.
  apply (contests_participated_value with_and_without_contestId).
  repeat constructor; by eexists.
Defined.

(** Without a record that lacks contestId the count is the number of
    contestId values, as C10 words it. *)
Example contests_participated_three :
  lacks_contestId three_submissions = false /\
  exists st,
    calculate_stats three_submissions = Ok st /\
    contests_participated st = size (contest_ids three_submissions) /\
    contests_participated st = 2.
Proof.
  split; [reflexivity |].
  eexists. split; [vm_compute; reflexivity |]. by vm_compute.
Qed.

(** ** Properties of [analyze_contests] *)

Lemma append_cons (c : ascii) (s t : string) :
  String c s +:+ t = String c (s +:+ t).
Proof. reflexivity. Qed.

Lemma append_empty (t : string) : "" +:+ t = t.
Proof. reflexivity. Qed.

Lemma prefix_spec (needle hay : string) :
  String.prefix needle hay = true <-> exists post, hay = needle +:+ post.
Proof.
  revert hay. induction needle as [| a needle IH]; intros hay.
  - split; [intros _; by exists hay | by destruct hay].
  - destruct hay as [| b hay]; simpl.
    + split; [done | intros [post H]; by rewrite append_cons in H].
    + destruct (Ascii.ascii_dec a b) as [-> | Hne].
      * rewrite IH. split; intros [post H]; exists post;
          rewrite append_cons in *; congruence.
      * split; [done | intros [post H]; rewrite append_cons in H; congruence].
Qed.

Lemma contains_empty (needle : string) :
  contains needle "" = String.prefix needle "" || false.
Proof. reflexivity. Qed.

Lemma contains_cons (needle : string) (c : ascii) (hay : string) :
  contains needle (String c hay) =
  String.prefix needle (String c hay) || contains needle hay.
Proof. reflexivity. Qed.

Lemma contains_spec (needle hay : string) :
  contains needle hay = true <-> occurs_in needle hay.
Proof.
  induction hay as [| c hay IH].
  - rewrite contains_empty, orb_false_r, prefix_spec. split.
    + intros [post H]. by exists "", post.
    + intros ([| ? pre] & post & H); [by exists post | by rewrite append_cons in H].
  - rewrite contains_cons, orb_true_iff, prefix_spec, IH. split.
    + intros [[post H] | (pre & post & H)].
      * by exists "", post.
      * exists (String c pre), post. by rewrite append_cons, H.
    + intros ([| d pre] & post & H).
      * left. by exists post.
      * right. exists pre, post. rewrite append_cons in H. congruence.
Qed.

Lemma contains_false (needle hay : string) :
  contains needle hay = false <-> ~ occurs_in needle hay.
Proof. rewrite <- contains_spec. by destruct (contains needle hay). Qed.

Lemma division_of_classified (name : string) : classified name (division_of name).
Proof.
  unfold division_of.
  destruct (contains "Div. 1" name) eqn:H1.
  { apply classified_div1. by apply contains_spec. }
  destruct (contains "Div. 2" name) eqn:H2.
  { apply classified_div2; [by apply contains_false | by apply contains_spec]. }
  destruct (contains "Div. 3" name) eqn:H3.
  { apply classified_div3;
      [by apply contains_false | by apply contains_false | by apply contains_spec]. }
  apply classified_other; by apply contains_false.
Qed.

Lemma classified_unique (name d1 d2 : string) :
  classified name d1 -> classified name d2 -> d1 = d2.
Proof. intros [] []; done. Qed.

Lemma contests_body_complete st name r new_rating :
  contests_body st (a_rating_change name r new_rating) =
  Ok (A.mk (record_rank (A.best_rank_by_division st) (division_of name) r)
           (Z.max (A.highest_rating st) new_rating)
           (record_overall (A.best_rank_overall st) r)).
Proof. reflexivity. Qed.

Lemma complete_inv entry :
  complete entry -> exists name r new_rating,
    entry = a_rating_change name r new_rating.
Proof.
  destruct entry as [n r x]. intros ([name ?] & [r' ?] & [x' ?]).
  simpl in *. subst. by exists name, r', x'.
Qed.

Lemma lookup_record_rank (d : gmap string Z) k r j :
  record_rank d k r !! j =
  if decide (k = j)
  then Some (match d !! k with Some b => Z.min r b | None => r end)
  else d !! j.
Proof.
  unfold record_rank. destruct (d !! k) as [b |] eqn:Hk.
  - destruct (Z.ltb_spec r b).
    + rewrite lookup_insert. case_decide; [f_equal; lia | done].
    + case_decide; [subst; rewrite Hk; f_equal; lia | done].
  - by rewrite lookup_insert.
Qed.

(** C6. The division an entry is filed under is the first of "Div. 1",
    "Div. 2", "Div. 3" that occurs in its contest name, and "Other" when
    none occurs; no other label fits; "Div. 1 vs Div. 2" is filed under
    "Div. 1". Every iteration of the loop records the rank of its entry
    under that one division and leaves the other divisions as they were. *)
Theorem division_priority (name : string) (r new_rating : Z) :
  classified name (division_of name) /\
  (forall d, classified name d -> d = division_of name) /\
  division_of "Div. 1 vs Div. 2" = "Div. 1" /\
  (forall st, exists st',
     contests_body st (a_rating_change name r new_rating) = Ok st' /\
     A.best_rank_by_division st' !! division_of name =
       Some (match A.best_rank_by_division st !! division_of name with
             | Some best => Z.min r best
             | None => r
             end) /\
     forall d, d <> division_of name ->
       A.best_rank_by_division st' !! d = A.best_rank_by_division st !! d) /\
  exists out,
    analyze_contests [a_rating_change name r new_rating] = Ok out /\
    best_rank_by_division out = {[division_of name := r]}.
Proof.
  split; [apply division_of_classified |].
  split.
  { intros d Hd. apply (classified_unique name); [done |].
    apply division_of_classified. }
  split; [reflexivity |].
  split.
  { intros st. eexists. split; [apply contests_body_complete |]. simpl.
    split.
    - by rewrite lookup_record_rank, decide_True.
    - intros d Hd. by rewrite lookup_record_rank, decide_False. }
  eexists. split; [reflexivity |]. simpl.
  unfold record_rank. by rewrite lookup_empty.
Qed.

Lemma record_rank_comm (d : gmap string Z) k1 r1 k2 r2 :
  record_rank (record_rank d k1 r1) k2 r2 =
  record_rank (record_rank d k2 r2) k1 r1.
Proof.
  apply map_eq. intros j. rewrite !lookup_record_rank.
  repeat case_decide; simplify_eq; try done.
  match goal with |- context [d !! ?k] => destruct (d !! k) end; f_equal; lia.
Qed.

Lemma record_overall_comm (b : option Z) r1 r2 :
  record_overall (record_overall b r1) r2 =
  record_overall (record_overall b r2) r1.
Proof.
  unfold record_overall.
  destruct b as [b |]; repeat (case_match; simplify_eq); f_equal; lia.
Qed.

Lemma for_each_cons {S A} (body : S -> A -> result S) x l s :
  for_each body (x :: l) s = s' ← body s x; for_each body l s'.
Proof. reflexivity. Qed.

Lemma bind_Ok {A B} (a : A) (k : A -> result B) : (x ← Ok a; k x) = k a.
Proof. reflexivity. Qed.

Lemma contests_loop_ok l st :
  Forall complete l -> exists st', for_each contests_body l st = Ok st'.
Proof.
  revert st. induction l as [| e l IH]; intros st Hc; [by exists st |].
  apply Forall_cons in Hc as [He Hc].
  destruct (complete_inv e He) as (n & r & x & ->).
  rewrite for_each_cons, contests_body_complete, bind_Ok. by apply IH.
Qed.

Lemma contests_loop_permutation l l' :
  l ≡ₚ l' -> Forall complete l ->
  forall st, exists st',
    for_each contests_body l st = Ok st' /\
    for_each contests_body l' st = Ok st'.
Proof.
  induction 1 as [| e l l' Hp IH | e1 e2 l | l1 l2 l3 H12 IH12 H23 IH23];
    intros Hc st.
  - by exists st.
  - apply Forall_cons in Hc as [He Hc].
    destruct (complete_inv e He) as (n & r & x & ->).
    rewrite !for_each_cons, contests_body_complete, !bind_Ok. by apply IH.
  - apply Forall_cons in Hc as [H1 Hc]. apply Forall_cons in Hc as [H2 Hc].
    destruct (complete_inv e2 H1) as (n1 & r1 & x1 & ->).
    destruct (complete_inv e1 H2) as (n2 & r2 & x2 & ->).
    rewrite !for_each_cons.
    repeat first [rewrite contests_body_complete | rewrite bind_Ok].
    simpl.
    rewrite (record_rank_comm _ (division_of n1)).
    rewrite (record_overall_comm _ r1).
    replace (Z.max (Z.max (A.highest_rating st) x1) x2)
      with (Z.max (Z.max (A.highest_rating st) x2) x1) by lia.
    match goal with
    | |- context [for_each contests_body l ?s] =>
        destruct (contests_loop_ok l s Hc) as [st' Hst']
    end.
    by exists st'.
  - destruct (IH12 Hc st) as (s & Ha & Hb).
    assert (Hc2 : Forall complete l2) by (by rewrite <- H12).
    destruct (IH23 Hc2 st) as (s' & Ha' & Hb').
    exists s. split; [done |]. congruence.
Qed.

(** C7. [analyze_contests] returns the same dict on a list of rating
    changes and on any permutation of it. *)
Theorem analyze_contests_permutation (l l' : list rating_change) :
  l ≡ₚ l' -> Forall complete l ->
  exists out, analyze_contests l = Ok out /\ analyze_contests l' = Ok out.
Proof.
  intros Hp Hc.
  destruct (contests_loop_permutation l l' Hp Hc A.init) as (st & H1 & H2).
  unfold analyze_contests. rewrite H1, H2. simpl.
  rewrite (Permutation_length Hp). eauto.
Qed.

Lemma analyze_contests_permutation_witness :
  exists out,
    analyze_contests two_rounds = Ok out /\
    analyze_contests (reverse two_rounds) = Ok out.
Proof.
  apply (analyze_contests_permutation two_rounds (reverse two_rounds)).
  - apply Permutation_swap.
  - repeat constructor; by eexists.
Defined.

(** The scenario of the specification. *)
Example two_rounds_stats :
  analyze_contests two_rounds =
  Ok {| total_contests := 2;
        contests_skipped := "Not Available";
        best_rank_by_division := {["Div. 2" := 200%Z]};
        highest_rating := 1500;
        best_rank_overall := Some 200%Z |}.
Proof. vm_compute. reflexivity. Qed.

(** ** Properties of [get_user_global_country_rank] *)

Section rank_facts.
Context (lower : string -> string).

Lemma scan_rank_cons (h : string) (u : rated_user) (h' : string) users i :
  ru_handle u = Some h' ->
  scan_rank lower (Some h) (u :: users) i =
  if String.eqb (lower h') (lower h) then Ok (Some (i + 1)%Z)
  else scan_rank lower (Some h) users (i + 1)%Z.
Proof. intros Hu. simpl. by rewrite Hu. Qed.

(** No user matches: the variable is still [None] after the loop. *)
Lemma scan_rank_absent (h : string) users i :
  Forall (differs lower h) users -> scan_rank lower (Some h) users i = Ok None.
Proof.
  revert i. induction users as [| u users IH]; intros i Hd; [done |].
  apply Forall_cons in Hd as [(h' & Hu & Hne) Hd].
  rewrite (scan_rank_cons h u h' users i Hu).
  apply String.eqb_neq in Hne. rewrite Hne. by apply IH.
Qed.

(** The first match, at index [k], sets the variable to [k + 1]. *)
Lemma scan_rank_first (h : string) users (k : nat) u i :
  Forall named users ->
  users !! k = Some u -> matches lower h u ->
  (forall j u', (j < k)%nat -> users !! j = Some u' -> ~ matches lower h u') ->
  scan_rank lower (Some h) users i = Ok (Some (i + Z.of_nat k + 1)%Z).
Proof.
  revert k i. induction users as [| v users IH]; intros k i Hn Hk Hm Hfirst;
    [done |].
  apply Forall_cons in Hn as [[h' Hv] Hn].
  rewrite (scan_rank_cons h v h' users i Hv).
  destruct k as [| k]; simpl in Hk.
  - injection Hk as ->. destruct Hm as (h'' & Hu & Heq).
    assert (h'' = h') by congruence. subst.
    apply String.eqb_eq in Heq. rewrite Heq. do 2 f_equal. lia.
  - destruct (String.eqb_spec (lower h') (lower h)) as [Heq | Hne].
    + exfalso. apply (Hfirst 0%nat v); [lia | done | by exists h'].
    + rewrite (IH k (i + 1)%Z Hn Hk Hm).
      * do 2 f_equal. lia.
      * intros j u' Hj Hu'. apply (Hfirst (S j) u'); [lia | done].
Qed.

(** With all handles present the loop raises nothing, and what it finds is
    a position of the list. *)
Lemma scan_rank_position (h : string) users i :
  Forall named users ->
  exists r, scan_rank lower (Some h) users i = Ok r /\
    match r with
    | Some x => (i + 1 <= x <= i + Z.of_nat (length users))%Z
    | None => True
    end.
Proof.
  revert i. induction users as [| v users IH]; intros i Hn.
  - by exists None.
  - apply Forall_cons in Hn as [[h' Hv] Hn].
    rewrite (scan_rank_cons h v h' users i Hv).
    destruct (String.eqb (lower h') (lower h)).
    + exists (Some (i + 1)%Z). split; [done |]. simpl. lia.
    + destruct (IH (i + 1)%Z Hn) as (r & Hr & Hpos).
      exists r. split; [done |]. destruct r; [| done]. simpl. lia.
Qed.

(** The percentile of a position: no division by zero, the formula of the
    source, and a value in [[0, 100]]. *)
Lemma percentile_position (r : Z) (n : nat) :
  (1 <= r <= Z.of_nat n)%Z ->
  percentile (Some r) n =
    Ok (Some (Float64.round2
      (Float64.mul (Float64.of_Z 100)
         (Float64.sub (Float64.of_Z 1)
            (Float64.div_int (r - 1) (Z.of_nat n)))))) /\
  (0 <= Float64.round2
      (Float64.mul (Float64.of_Z 100)
         (Float64.sub (Float64.of_Z 1)
            (Float64.div_int (r - 1) (Z.of_nat n)))) <= 100)%Q.
Proof.
  intros Hr. split.
  - unfold percentile, truediv.
    destruct (Z.eqb_spec r 0); [lia |].
    destruct (Z.eqb_spec (Z.of_nat n) 0); [lia | done].
  - apply round2_bounded, percent_bounded_l, complement_bounded, div_int_unit;
      lia.
Qed.

Lemma percentile_of_position (n : nat) (rank : option Z) :
  position_in n rank ->
  exists p, percentile rank n = Ok p /\
    percentile_in_range p /\ (rank = None -> p = None).
Proof.
  destruct rank as [r |]; simpl; intros Hr.
  - destruct (percentile_position r n Hr) as [Hp Hb].
    eexists. split; [exact Hp |]. split; [exact Hb | done].
  - by exists None.
Qed.

Lemma Forall_filter_country {P : rated_user -> Prop} (c : option string) users :
  Forall P users -> Forall P (filter (fun u => ru_country u = c) users).
Proof.
  intros H. apply Forall_forall. intros u Hu%list_elem_of_filter.
  rewrite Forall_forall in H. apply H. tauto.
Qed.

(** C8. With an empty list of rated users, or with a list in which no
    handle is the target's up to case, every rank and percentile is [None]
    and nothing is raised. *)
Theorem rank_undefined (user_info : user_info_t) (rated_users : list rated_user) :
  rated_users = [] \/
  (exists h, ui_handle user_info = Some h /\ Forall (differs lower h) rated_users) ->
  get_user_global_country_rank lower user_info rated_users =
  Ok {| global_rank := None;
        global_percentile := None;
        country_rank := None;
        country_percentile := None;
        country := ui_country user_info |}.
Proof.
  intros [-> | (h & Hh & Hd)]; [done |].
  unfold get_user_global_country_rank. rewrite Hh.
  rewrite (scan_rank_absent h rated_users 0 Hd), bind_Ok.
  rewrite (scan_rank_absent h _ 0 (Forall_filter_country _ _ Hd)), bind_Ok.
  done.
Qed.

(** C9. When exactly one user of the list has the target's handle up to
    case, at index [k], [global_rank] is [k + 1], which lies between 1 and
    [total_users], and [global_percentile] is
    [round(100 * (1 - (global_rank - 1) / total_users), 2)], which lies in
    [[0, 100]]. *)
Theorem global_rank_position (user_info : user_info_t)
    (rated_users : list rated_user) (h : string) (k : nat) (u : rated_user) :
  ui_handle user_info = Some h ->
  Forall named rated_users ->
  rated_users !! k = Some u -> matches lower h u ->
  (forall j u', rated_users !! j = Some u' -> matches lower h u' -> j = k) ->
  let rank := (Z.of_nat k + 1)%Z in
  let total_users := length rated_users in
  let p := Float64.round2
      (Float64.mul (Float64.of_Z 100)
         (Float64.sub (Float64.of_Z 1)
            (Float64.div_int (rank - 1) (Z.of_nat total_users)))) in
  exists out,
    get_user_global_country_rank lower user_info rated_users = Ok out /\
    global_rank out = Some rank /\
    (1 <= rank <= Z.of_nat total_users)%Z /\
    global_percentile out = Some p /\
    (0 <= p <= 100)%Q.
Proof.
  intros Hh Hn Hk Hm Huniq rank total_users p.
  assert (Hrank : (1 <= rank <= Z.of_nat total_users)%Z).
  { apply lookup_lt_Some in Hk. unfold rank, total_users. lia. }
  assert (Hg : scan_rank lower (Some h) rated_users 0 = Ok (Some rank)).
  { rewrite (scan_rank_first h rated_users k u 0 Hn Hk Hm).
    - do 2 f_equal.
    - intros j u' Hj Hu' Hm'. specialize (Huniq j u' Hu' Hm'). lia. }
  destruct (scan_rank_position h
    (filter (fun u => ru_country u = ui_country user_info) rated_users) 0
    (Forall_filter_country _ _ Hn)) as (cr & Hc & Hcpos).
  destruct (percentile_position rank total_users Hrank) as [Hp Hb].
  destruct (percentile_of_position
    (length (filter (fun u => ru_country u = ui_country user_info) rated_users))
    cr) as (cp & Hcp & _).
  { destruct cr; [simpl; lia | done]. }
  unfold get_user_global_country_rank. rewrite Hh, Hg, bind_Ok, Hc, bind_Ok.
  fold total_users. rewrite Hp, bind_Ok, Hcp, bind_Ok.
  eexists. split; [reflexivity |]. simpl. done.
Qed.

End rank_facts.

Lemma rank_undefined_witness :
  get_user_global_country_rank ascii_lower carol three_users =
  Ok {| global_rank := None;
        global_percentile := None;
        country_rank := None;
        country_percentile := None;
        country := ui_country carol |}.
Proof.
  apply (rank_undefined ascii_lower carol three_users).
  right. exists "carol". split; [reflexivity |].
  repeat constructor; eexists; (split; [reflexivity | by vm_compute]).
Defined.

(** An empty list, and a target without a handle: still no exception. *)
Example rank_undefined_empty (lower : string -> string)
    (user_info : user_info_t) :
  get_user_global_country_rank lower user_info [] =
  Ok {| global_rank := None;
        global_percentile := None;
        country_rank := None;
        country_percentile := None;
        country := ui_country user_info |}.
Proof. reflexivity. Qed.

(** With users to scan, a target without a handle raises. *)
Example rank_without_target_handle :
  get_user_global_country_rank ascii_lower nobody three_users = Raise AttributeError.
Proof. reflexivity. Qed.

Lemma global_rank_position_witness :
  exists out,
    get_user_global_country_rank ascii_lower bob three_users = Ok out /\
    global_rank out = Some 3%Z /\
    (1 <= 3 <= 3)%Z /\
    global_percentile out =
      Some (Float64.round2
        (Float64.mul (Float64.of_Z 100)
           (Float64.sub (Float64.of_Z 1) (Float64.div_int (3 - 1) 3)))) /\
    (0 <= Float64.round2
        (Float64.mul (Float64.of_Z 100)
           (Float64.sub (Float64.of_Z 1) (Float64.div_int (3 - 1) 3)))
       <= 100)%Q.
Proof.
  apply (global_rank_position ascii_lower bob three_users "bob" 2 (a_user "Bob" (Some "BD"))).
  - reflexivity.
  - repeat constructor; by eexists.
  - reflexivity.
  - by exists "Bob".
  - intros j u' Hj (h' & Hh' & Heq).
    destruct j as [| [| [| j]]]; simpl in Hj; simplify_eq; simpl in *;
      simplify_eq; try done; vm_compute in Heq; discriminate.
Defined.

(** Bob is third of three, and second of the two users of his country. *)
Example bob_rank :
  get_user_global_country_rank ascii_lower bob three_users =
  Ok {| global_rank := Some 3%Z;
        global_percentile := Some (Float64.fl (3333 # 100));
        country_rank := Some 2%Z;
        country_percentile := Some 50%Q;
        country := Some "BD" |}.
Proof. vm_compute. reflexivity. Qed.

(** * Further properties *)

(** ** More on the loops of [calculate_stats] *)

Lemma pid_of_problem sub p :
  problem sub = Some p -> pid_of sub = Some (problem_id p).
Proof. intros Hp. unfold pid_of. by rewrite Hp. Qed.

Lemma pids_snoc l sub p :
  problem sub = Some p -> pids (l ++ [sub]) = pids l ++ [problem_id p].
Proof.
  intros Hp. unfold pids. by rewrite (problems_snoc _ _ p Hp), fmap_app.
Qed.

Lemma first_verdict_snoc pid l sub :
  first_verdict pid (l ++ [sub]) =
  match first_verdict pid l with
  | Some v => Some v
  | None =>
      if decide (pid_of sub = Some pid)
      then Some (default "UNKNOWN" (verdict sub)) else None
  end.
Proof.
  induction l as [| s l IH]; simpl; [done |].
  by destruct (decide (pid_of s = Some pid)).
Qed.

Lemma first_verdict_submission pid l v :
  first_verdict pid l = Some v <->
  exists sub, first_submission pid sub l /\ default "UNKNOWN" (verdict sub) = v.
Proof.
  induction l as [| s l IH]; simpl.
  - split; [done |]. intros (sub & (pre & post & H & _) & _).
    by destruct pre.
  - destruct (decide (pid_of s = Some pid)) as [Hs | Hs].
    + split.
      * intros [= <-]. exists s. split; [| done].
        exists [], l. by repeat split.
      * intros (sub & (pre & post & H & Hsub & Hpre) & Hv).
        destruct pre as [| s' pre]; simpl in H.
        -- injection H as -> _. by rewrite Hv.
        -- injection H as -> _. by apply Forall_cons in Hpre as [? _].
    + rewrite IH. split.
      * intros (sub & (pre & post & H & Hsub & Hpre) & Hv).
        exists sub. split; [| done]. exists (s :: pre), post.
        repeat split; [by rewrite H | done | by constructor].
      * intros (sub & (pre & post & H & Hsub & Hpre) & Hv).
        destruct pre as [| s' pre]; simpl in H.
        -- injection H as -> _. done.
        -- injection H as -> ->. apply Forall_cons in Hpre as [_ Hpre].
           exists sub. split; [| done]. by exists pre, post.
Qed.

Lemma stats_inv_more_init : stats_inv_more [] L.init.
Proof. split; simpl; try done. Qed.

(** One iteration extends the second invariant as well. *)
Lemma stats_body_inv_more l st sub p :
  problem sub = Some p -> stats_inv_more l st ->
  exists st', stats_body st sub = Ok st' /\ stats_inv_more (l ++ [sub]) st'.
Proof.
  intros Hp [Hwrong Hpfs Hfirst].
  unfold stats_body. rewrite Hp. simpl.
  set (w := default "UNKNOWN" (verdict sub)).
  assert (Hw : default "UNKNOWN" (verdict sub) = w) by done.
  assert (Hpid : pid_of sub = Some (contestId p, index p))
    by (by apply pid_of_problem).
  assert (Hpfs' : forall pid,
    (if bool_decide (L.problem_first_submission st !! (contestId p, index p)
                     = None)
     then <[(contestId p, index p) := w]> (L.problem_first_submission st)
     else L.problem_first_submission st) !! pid =
    first_verdict pid (l ++ [sub])).
  { intros pid. rewrite first_verdict_snoc, Hpid, Hw.
    case_bool_decide as Hnone.
    - rewrite lookup_insert. destruct (decide ((contestId p, index p) = pid))
        as [<- | Hne].
      + rewrite <- Hpfs, Hnone. by rewrite decide_True.
      + rewrite Hpfs. destruct (first_verdict pid l); [done |].
        rewrite decide_False; [done | congruence].
    - rewrite Hpfs. destruct (first_verdict pid l) eqn:Hfv; [done |].
      rewrite decide_False; [done |]. intros [= <-].
      by rewrite Hpfs in Hnone. }
  destruct (String.eqb_spec w "OK") as [Hok | Hno].
  - eexists. split; [reflexivity |]. split; simpl.
    + rewrite filter_snoc, decide_False, app_nil_r; [done |].
      unfold wrong_answer. rewrite tallied_as_default, Hw, Hok. done.
    + done.
    + intros pid. rewrite first_verdict_snoc, Hpid, Hw. rewrite <- Hpfs.
      case_bool_decide as Hnone.
      * rewrite elem_of_union, elem_of_singleton, Hfirst, <- Hpfs.
        destruct (decide ((contestId p, index p) = pid)) as [<- | Hne].
        -- rewrite Hnone, decide_True by done. rewrite Hok. naive_solver.
        -- destruct (L.problem_first_submission st !! pid) eqn:E;
             [naive_solver |].
           rewrite decide_False by congruence. naive_solver.
      * rewrite Hfirst, <- Hpfs.
        destruct (L.problem_first_submission st !! pid) eqn:E; [done |].
        rewrite decide_False; [done |]. intros [= <-]. done.
  - eexists. split; [reflexivity |]. split; simpl.
    + rewrite filter_snoc, length_app.
      destruct (String.eqb_spec w "WRONG_ANSWER") as [Hwa | Hnwa].
      * rewrite decide_True; [simpl; lia |].
        unfold wrong_answer. by rewrite tallied_as_default.
      * rewrite decide_False; [simpl; lia |].
        unfold wrong_answer. by rewrite tallied_as_default.
    + done.
    + intros pid. rewrite first_verdict_snoc, Hpid, Hw. rewrite Hfirst.
      destruct (first_verdict pid l) eqn:E; [done |].
      destruct (decide (Some (contestId p, index p) = Some pid)); [| done].
      split; [done | congruence].
Qed.

Lemma stats_loop_inv_both l :
  Forall has_problem l ->
  exists st, for_each stats_body l L.init = Ok st /\
             stats_inv l st /\ stats_inv_more l st.
Proof.
  induction l as [| sub l IH] using rev_ind; intros Hl.
  - exists L.init. split; [done |].
    split; [apply stats_inv_init | apply stats_inv_more_init].
  - apply Forall_app in Hl as [Hl Hsub].
    apply Forall_singleton in Hsub as [p Hp].
    destruct (IH Hl) as (st & Hrun & Hinv & Hmore).
    destruct (stats_body_inv l st sub p Hp Hinv) as (st' & Hstep & Hinv').
    destruct (stats_body_inv_more l st sub p Hp Hmore) as (st'' & E & Hmore').
    assert (st'' = st') by congruence. subst st''.
    exists st'. split; [| done].
    rewrite for_each_snoc, Hrun. simpl. exact Hstep.
Qed.

(** *** The second loop *)

Lemma first_seen_elem_of `{EqDecision A} (x : A) l :
  x ∈ first_seen l <-> x ∈ l.
Proof.
  induction l as [| y l IH]; simpl; [done |].
  rewrite !elem_of_cons, list_elem_of_filter, IH.
  destruct (decide (x = y)); naive_solver.
Qed.

Lemma first_seen_NoDup `{EqDecision A} (l : list A) : NoDup (first_seen l).
Proof.
  induction l as [| y l IH]; simpl; [constructor |].
  constructor.
  - rewrite list_elem_of_filter. naive_solver.
  - by apply NoDup_filter.
Qed.

Lemma first_seen_snoc `{EqDecision A} (l : list A) x :
  first_seen (l ++ [x]) =
  if decide (x ∈ l) then first_seen l else first_seen l ++ [x].
Proof.
  induction l as [| y l IH]; simpl; [done |].
  rewrite IH. destruct (decide (x ∈ l)) as [Hin | Hnin].
  - rewrite decide_True; [done | by apply elem_of_cons; right].
  - rewrite filter_app, filter_cons, filter_nil.
    destruct (decide (x = y)) as [-> | Hne].
    + rewrite (decide_True (P := y ∈ y :: l)) by (apply elem_of_cons; by left).
      rewrite (decide_False (P := y <> y)) by naive_solver.
      by rewrite app_nil_r.
    + rewrite (decide_False (P := x ∈ y :: l))
        by (by intros [?|?]%elem_of_cons).
      by rewrite (decide_True (P := x <> y)).
Qed.

Lemma attempts_snoc pid l sub :
  attempts pid (l ++ [sub]) =
  attempts pid l + (if decide (pid_of sub = Some pid) then 1 else 0).
Proof.
  unfold attempts. rewrite filter_snoc, length_app.
  by destruct (decide (pid_of sub = Some pid)).
Qed.

Lemma attempts_le pid l : attempts pid l <= length l.
Proof. apply length_filter. Qed.

Lemma pids_cons sub l :
  pids (sub :: l) =
  match pid_of sub with Some q => q :: pids l | None => pids l end.
Proof. unfold pids, problems, pid_of. simpl. by destruct (problem sub). Qed.

(** A problem is attempted as soon as it is among the ProblemIDs. *)
Lemma attempts_pos pid l : pid ∈ pids l <-> 0 < attempts pid l.
Proof.
  induction l as [| s l IH].
  - split; [by intros ?%elem_of_nil | unfold attempts; simpl; lia].
  - rewrite pids_cons. unfold attempts in *. rewrite filter_cons.
    destruct (decide (pid_of s = Some pid)) as [E | E]; simpl.
    + rewrite E. split; [lia | intros _; apply elem_of_cons; by left].
    + destruct (pid_of s) as [q |]; [| done].
      rewrite elem_of_cons, IH. split; [intros [-> | ?]; done | by right].
Qed.

(** Bumping a key of a dict whose values are given by [f]. *)
Lemma bump_counted (keys : list ProblemID) pid (f g : ProblemID -> nat) :
  NoDup keys ->
  g pid = S (f pid) -> (forall k, k <> pid -> g k = f k) ->
  (pid ∉ keys -> f pid = 0) ->
  bump pid ((fun k => (k, f k)) <$> keys) =
  (fun k => (k, g k)) <$> (if decide (pid ∈ keys) then keys else keys ++ [pid]).
Proof.
  intros Hnd Hg Hother Hzero.
  induction keys as [| k keys IH].
  - destruct (decide (pid ∈ [])) as [Hin | _]; [by apply elem_of_nil in Hin |].
    simpl. rewrite Hg, Hzero; [done | apply not_elem_of_nil].
  - apply NoDup_cons in Hnd as [Hk Hnd].
    rewrite fmap_cons. simpl bump. case_bool_decide as Hkp.
    + subst k.
      destruct (decide (pid ∈ pid :: keys)) as [_ | Hnin];
        [| exfalso; apply Hnin, elem_of_cons; by left].
      rewrite fmap_cons, Hg. f_equal.
      apply list_fmap_ext. intros i k Hik. rewrite Hother; [done |].
      intros ->. apply Hk. by eapply list_elem_of_lookup_2.
    + rewrite IH; [| done |].
      * destruct (decide (pid ∈ keys)) as [Hin | Hnin].
        -- destruct (decide (pid ∈ k :: keys)) as [_ | Hn];
             [| exfalso; apply Hn, elem_of_cons; by right].
           rewrite fmap_cons. by rewrite Hother.
        -- destruct (decide (pid ∈ k :: keys)) as [[?|?]%elem_of_cons | _];
             [done | done |].
           csimpl. by rewrite Hother.
      * intros Hnin. apply Hzero. intros [?|?]%elem_of_cons; done.
Qed.

Lemma attempts_loop l :
  Forall has_problem l ->
  for_each attempts_body l [] =
  Ok ((fun pid => (pid, attempts pid l)) <$> first_seen (pids l)).
Proof.
  induction l as [| sub l IH] using rev_ind; intros Hl; [done |].
  apply Forall_app in Hl as [Hl Hsub].
  apply Forall_singleton in Hsub as [p Hp].
  rewrite for_each_snoc, (IH Hl), bind_Ok.
  unfold attempts_body. rewrite Hp. simpl. f_equal.
  rewrite (pids_snoc _ _ p Hp), first_seen_snoc.
  rewrite (bump_counted (first_seen (pids l)) (problem_id p)
             (fun pid => attempts pid l)
             (fun pid => attempts pid (l ++ [sub]))).
  - destruct (decide (problem_id p ∈ first_seen (pids l))) as [H1 | H1],
      (decide (problem_id p ∈ pids l)) as [H2 | H2]; try done;
      exfalso; rewrite first_seen_elem_of in H1; done.
  - apply first_seen_NoDup.
  - rewrite attempts_snoc, (pid_of_problem _ _ Hp), decide_True by done. lia.
  - intros k Hk. rewrite attempts_snoc, (pid_of_problem _ _ Hp).
    rewrite decide_False by congruence. lia.
  - rewrite first_seen_elem_of. intros Hnin.
    destruct (attempts (problem_id p) l) eqn:E; [done |].
    exfalso. apply Hnin, attempts_pos. lia.
Qed.

(** *** The returned dict, in full *)

Lemma keyed_values {A} (f : A -> nat) (keys : list A) :
  ((fun k => (k, f k)) <$> keys).*2 = f <$> keys.
Proof. rewrite <- list_fmap_compose. by apply list_fmap_ext. Qed.

Lemma keyed_filter {A} (f : A -> nat) (m : nat) (keys : list A) :
  (filter (fun kc => kc.2 = m) ((fun k => (k, f k)) <$> keys)).*1 =
  filter (fun k => f k = m) keys.
Proof.
  induction keys as [| k keys IH]; [done |].
  rewrite fmap_cons, !filter_cons. simpl.
  destruct (decide (f k = m)); csimpl; by rewrite IH.
Qed.

Lemma foldr_max_fmap {A} (f : A -> nat) (l : list A) :
  foldr Nat.max 0 (f <$> l) = max_list_with f l.
Proof.
  induction l as [| x l IH]; [done |].
  rewrite fmap_cons. simpl. by rewrite IH.
Qed.

(** With a [problem] in every record, [calculate_stats] returns, and every
    field is read from the loops as the invariants describe. *)
Lemma calculate_stats_run_more subs :
  Forall has_problem subs ->
  exists loc st,
    calculate_stats subs = Ok st /\
    stats_inv subs loc /\ stats_inv_more subs loc /\
    returns subs loc st /\ returns_more subs loc st.
Proof.
  intros Hwf.
  destruct (stats_loop_inv_both subs Hwf) as (loc & Hrun & Hinv & Hmore).
  exists loc. unfold calculate_stats.
  rewrite Hrun, bind_Ok, (attempts_loop subs Hwf).
  destruct (size (L.attempted_problems loc) =? 0)%nat eqn:Hz.
  - rewrite !bind_Ok. eexists. split; [reflexivity |].
    split; [done |]. split; [done |]. split.
    + split; simpl; try done. by rewrite Hz.
    + split; simpl; [done | by rewrite keyed_values |].
      by rewrite keyed_values, keyed_filter.
  - unfold truediv. apply Nat.eqb_neq in Hz.
    destruct (Z.eqb_spec (Z.of_nat (size (L.attempted_problems loc))) 0)
      as [E | _]; [lia |].
    rewrite !bind_Ok. eexists. split; [reflexivity |].
    split; [done |]. split; [done |]. split.
    + split; simpl; try done. apply Nat.eqb_neq in Hz. by rewrite Hz.
    + split; simpl; [done | by rewrite keyed_values |].
      by rewrite keyed_values, keyed_filter.
Qed.

Lemma length_filter_exclusive {A} (P Q : A -> Prop)
    `{forall x, Decision (P x)} `{forall x, Decision (Q x)} (l : list A) :
  (forall x, P x -> Q x -> False) ->
  length (filter P l) + length (filter Q l) <= length l.
Proof.
  intros Hex. induction l as [| x l IH]; [done |].
  rewrite !filter_cons.
  destruct (decide (P x)), (decide (Q x)); simpl; try lia.
  exfalso. eauto.
Qed.

Lemma size_list_to_set_le `{Countable A} (l : list A) :
  size (list_to_set (C := gset A) l) <= length l.
Proof.
  induction l as [| x l IH].
  - rewrite list_to_set_nil, size_empty. done.
  - rewrite list_to_set_cons, size_union_alt, size_singleton. simpl.
    assert (size (list_to_set (C := gset A) l ∖ {[x]}) <=
            size (list_to_set (C := gset A) l))
      by (apply subseteq_size; set_solver).
    lia.
Qed.

Lemma problems_length l : Forall has_problem l -> length (problems l) = length l.
Proof.
  induction 1 as [| s l [p Hp] _ IH]; [done |].
  change (s :: l) with ([s] ++ l). unfold problems in *.
  rewrite omap_app, !length_app, IH. simpl. by rewrite Hp.
Qed.

Lemma Forall_has_problem_filter (P : submission -> Prop)
    `{forall x, Decision (P x)} l :
  Forall has_problem l -> Forall has_problem (filter P l).
Proof.
  intros Hl. apply Forall_forall. intros s Hs%list_elem_of_filter.
  rewrite Forall_forall in Hl. apply Hl. tauto.
Qed.

(** ** Further properties of [calculate_stats] *)

(** X1. [wrong_answer_count] is the number of submissions whose verdict is
    WRONG_ANSWER, and accepted and wrong answers together never exceed
    [total_submissions]. *)
Theorem wrong_answer_tally (subs : list submission) :
  Forall has_problem subs ->
  exists st,
    calculate_stats subs = Ok st /\
    wrong_answer_count st = length (filter wrong_answer subs) /\
    accepted_count st + wrong_answer_count st <= total_submissions st.
Proof.
  intros Hwf.
  destruct (calculate_stats_run_more subs Hwf)
    as (loc & st & Hrun & Hinv & Hmore & Hret & Hret').
  exists st. split; [done |].
  rewrite (ret_wrong _ _ _ Hret'), (inv_wrong _ _ Hmore).
  rewrite (ret_accepted _ _ _ Hret), (inv_accepted _ _ Hinv).
  rewrite (ret_total _ _ _ Hret). split; [done |].
  apply length_filter_exclusive. intros sub Ha Hw.
  unfold accepted, wrong_answer in *.
  rewrite tallied_as_default in Ha, Hw. congruence.
Qed.

Lemma wrong_answer_tally_witness :
  exists st,
    calculate_stats three_submissions = Ok st /\
    wrong_answer_count st = length (filter wrong_answer three_submissions) /\
    accepted_count st + wrong_answer_count st <= total_submissions st.
Proof.
  apply (wrong_answer_tally three_submissions).
  repeat constructor; by eexists.
Defined.

(** X2. [first_attempt_solved] counts exactly the problems whose first
    submission, in input order, is accepted. *)
Theorem first_attempt_solved_first (subs : list submission) :
  Forall has_problem subs ->
  exists st (X : gset ProblemID),
    calculate_stats subs = Ok st /\
    first_attempt_solved st = size X /\
    forall pid,
      pid ∈ X <-> exists sub, first_submission pid sub subs /\ accepted sub.
Proof.
  intros Hwf.
  destruct (calculate_stats_run_more subs Hwf)
    as (loc & st & Hrun & Hinv & Hmore & Hret & Hret').
  exists st, (L.first_attempt_solved loc). split; [done |].
  split; [apply (ret_first _ _ _ Hret) |].
  intros pid. rewrite (inv_first_solved _ _ Hmore), first_verdict_submission.
  split; intros (sub & Hsub & Hv); exists sub; (split; [done |]);
    by apply tallied_as_default.
Qed.

Lemma first_attempt_solved_first_witness :
  exists st (X : gset ProblemID),
    calculate_stats three_submissions = Ok st /\
    first_attempt_solved st = size X /\
    forall pid,
      pid ∈ X <->
      exists sub, first_submission pid sub three_submissions /\ accepted sub.
Proof.
  apply (first_attempt_solved_first three_submissions).
  repeat constructor; by eexists.
Defined.

Lemma max_attempts_bound (subs : list submission) (pid : ProblemID) :
  attempts pid subs <=
  max_list_with (fun pid => attempts pid subs) (first_seen (pids subs)).
Proof.
  destruct (decide (pid ∈ pids subs)) as [Hin | Hnin].
  - rewrite <- first_seen_elem_of in Hin.
    induction (first_seen (pids subs)) as [| k keys IH];
      [by apply elem_of_nil in Hin |].
    simpl. apply elem_of_cons in Hin as [-> | Hin]; [lia |].
    specialize (IH Hin). lia.
  - rewrite attempts_pos in Hnin. lia.
Qed.

Lemma max_list_with_attained {A} (f : A -> nat) (l : list A) :
  l <> [] -> exists x, x ∈ l /\ f x = max_list_with f l.
Proof.
  induction l as [| x l IH]; [done |]. intros _. simpl.
  destruct l as [| y l].
  - exists x. split; [apply elem_of_cons; by left | simpl; lia].
  - destruct IH as (z & Hz & Hfz); [done |].
    destruct (Nat.max_spec (f x) (max_list_with f (y :: l))) as [[_ E] | [_ E]].
    + exists z. split; [apply elem_of_cons; by right | congruence].
    + exists x. split; [apply elem_of_cons; by left | congruence].
Qed.

Lemma pids_nil l : Forall has_problem l -> pids l = [] -> l = [].
Proof.
  intros Hwf Hp. apply (f_equal length) in Hp.
  unfold pids in Hp. rewrite length_fmap, (problems_length _ Hwf) in Hp.
  by destruct l.
Qed.

(** X3. [max_attempts] is the largest number of submissions to one problem:
    no problem has more, and, unless the list is empty (when it is 0), some
    attempted problem has exactly that many; it is at most
    [total_submissions]. *)
Theorem max_attempts_is_maximum (subs : list submission) :
  Forall has_problem subs ->
  exists st,
    calculate_stats subs = Ok st /\
    (forall pid, attempts pid subs <= max_attempts st) /\
    ((subs = [] /\ max_attempts st = 0) \/
     (exists pid, pid ∈ pids subs /\ attempts pid subs = max_attempts st /\
                  0 < max_attempts st)) /\
    max_attempts st <= total_submissions st.
Proof.
  intros Hwf.
  destruct (calculate_stats_run_more subs Hwf)
    as (loc & st & Hrun & Hinv & Hmore & Hret & Hret').
  exists st. split; [done |].
  rewrite (ret_max _ _ _ Hret'), foldr_max_fmap, (ret_total _ _ _ Hret).
  split; [apply max_attempts_bound |].
  destruct (decide (first_seen (pids subs) = [])) as [Hnil | Hne].
  - assert (subs = []) as ->.
    { apply pids_nil; [done |]. destruct (pids subs); [done |]. discriminate. }
    split; [by left | done].
  - destruct (max_list_with_attained (fun pid => attempts pid subs) _ Hne)
      as (pid & Hin & Hmax).
    rewrite first_seen_elem_of in Hin. simpl in Hmax.
    split.
    + right. exists pid. split; [done |]. split; [exact Hmax |].
      rewrite <- Hmax. by apply attempts_pos.
    + rewrite <- Hmax. apply attempts_le.
Qed.

Lemma max_attempts_is_maximum_witness :
  exists st,
    calculate_stats three_submissions = Ok st /\
    (forall pid, attempts pid three_submissions <= max_attempts st) /\
    ((three_submissions = [] /\ max_attempts st = 0) \/
     (exists pid, pid ∈ pids three_submissions /\
                  attempts pid three_submissions = max_attempts st /\
                  0 < max_attempts st)) /\
    max_attempts st <= total_submissions st.
Proof.
  apply (max_attempts_is_maximum three_submissions).
  repeat constructor; by eexists.
Defined.

(** X4. [most_attempted_problems] lists, formatted, the distinct problems
    in the order of their first submission, keeping those submitted
    [max_attempts] times; it is empty only for an empty list. *)
Theorem most_attempted_listing (subs : list submission) :
  Forall has_problem subs ->
  exists st,
    calculate_stats subs = Ok st /\
    most_attempted_problems st =
      format_problem <$>
        filter (fun pid => attempts pid subs = max_attempts st)
          (first_seen (pids subs)) /\
    (most_attempted_problems st = [] <-> subs = []).
Proof.
  intros Hwf.
  destruct (calculate_stats_run_more subs Hwf)
    as (loc & st & Hrun & Hinv & Hmore & Hret & Hret').
  exists st. split; [done |]. split; [apply (ret_most _ _ _ Hret') |].
  rewrite (ret_most _ _ _ Hret'), (ret_max _ _ _ Hret'), foldr_max_fmap.
  split.
  - intros Hnil. apply fmap_nil_inv in Hnil.
    destruct (decide (first_seen (pids subs) = [])) as [E | Hne].
    + apply pids_nil; [done |]. destruct (pids subs); [done |]. discriminate.
    + destruct (max_list_with_attained (fun pid => attempts pid subs) _ Hne)
        as (pid & Hin & Hmax).
      assert (Hf : pid ∈ filter (fun pid => attempts pid subs =
                      max_list_with (fun pid => attempts pid subs)
                        (first_seen (pids subs))) (first_seen (pids subs)))
        by (by apply list_elem_of_filter).
      rewrite Hnil in Hf. by apply elem_of_nil in Hf.
  - by intros ->.
Qed.

Lemma most_attempted_listing_witness :
  exists st,
    calculate_stats three_submissions = Ok st /\
    most_attempted_problems st =
      format_problem <$>
        filter (fun pid => attempts pid three_submissions = max_attempts st)
          (first_seen (pids three_submissions)) /\
    (most_attempted_problems st = [] <-> three_submissions = []).
Proof.
  apply (most_attempted_listing three_submissions).
  repeat constructor; by eexists.
Defined.

Lemma accepted_problems_length l :
  Forall has_problem l ->
  length (accepted_problems l) = length (filter accepted l).
Proof.
  intros Hwf. unfold accepted_problems.
  by apply problems_length, Forall_has_problem_filter.
Qed.

(** X5. Distinct problems never outnumber submissions:
    [unique_attempted <= total_submissions],
    [unique_solved <= accepted_count], and no problem is solved exactly when
    no submission is accepted. *)
Theorem distinct_counts_bounded (subs : list submission) :
  Forall has_problem subs ->
  exists st,
    calculate_stats subs = Ok st /\
    unique_attempted st <= total_submissions st /\
    unique_solved st <= accepted_count st /\
    (unique_solved st = 0 <-> accepted_count st = 0).
Proof.
  intros Hwf.
  destruct (calculate_stats_run_more subs Hwf)
    as (loc & st & Hrun & Hinv & Hmore & Hret & Hret').
  exists st. split; [done |].
  rewrite (ret_attempted _ _ _ Hret), (inv_attempted _ _ Hinv).
  rewrite (ret_solved _ _ _ Hret), (inv_solved _ _ Hinv).
  rewrite (ret_total _ _ _ Hret).
  rewrite (ret_accepted _ _ _ Hret), (inv_accepted _ _ Hinv).
  rewrite <- (accepted_problems_length subs Hwf).
  split.
  { rewrite <- (problems_length subs Hwf), <- (length_fmap problem_id).
    apply size_list_to_set_le. }
  split.
  { rewrite <- (length_fmap problem_id (accepted_problems subs)).
    apply size_list_to_set_le. }
  split.
  - intros Hz. apply size_empty_iff in Hz.
    destruct (accepted_problems subs) as [| p ps]; [done |].
    exfalso. set_solver.
  - intros Hz. destruct (accepted_problems subs); [| done].
    by rewrite fmap_nil, list_to_set_nil, size_empty.
Qed.

Lemma distinct_counts_bounded_witness :
  exists st,
    calculate_stats three_submissions = Ok st /\
    unique_attempted st <= total_submissions st /\
    unique_solved st <= accepted_count st /\
    (unique_solved st = 0 <-> accepted_count st = 0).
Proof.
  apply (distinct_counts_bounded three_submissions).
  repeat constructor; by eexists.
Defined.

(** *** The rate at its ends *)

Lemma rne_comp (x y : Q) : (x == y)%Q -> Float64.rne x = Float64.rne y.
Proof.
  intros Hxy. unfold Float64.rne.
  rewrite (Qfloor_comp _ _ Hxy).
  assert (Hc : ((x - inject_Z (Qfloor y)) ?= (1 # 2))%Q =
               ((y - inject_Z (Qfloor y)) ?= (1 # 2))%Q).
  { apply Qcompare_comp; [by rewrite Hxy | reflexivity]. }
  by rewrite Hc.
Qed.

Lemma fl_comp_exp (x y : Q) :
  (x == y)%Q -> Float64.ulp_exp x = Float64.ulp_exp y ->
  Float64.fl x = Float64.fl y.
Proof.
  intros Hxy He. unfold Float64.fl. rewrite He.
  apply Qred_complete.
  rewrite (rne_comp (x / Float64.pow2 (Float64.ulp_exp y))
                    (y / Float64.pow2 (Float64.ulp_exp y)));
    [reflexivity | by rewrite Hxy].
Qed.

(** [0 / b] is [0.0]. *)
Lemma div_int_zero (b : Z) : (b <> 0)%Z -> Float64.div_int 0 b = 0%Q.
Proof.
  intros Hb. unfold Float64.div_int.
  change 0%Q with (Float64.fl 0). apply fl_comp_exp.
  - unfold Qdiv. change (inject_Z 0) with 0%Q. ring.
  - reflexivity.
Qed.

Lemma ilog2_same (p : positive) : Float64.ilog2 p p = 0%Z.
Proof.
  unfold Float64.ilog2. rewrite Z.sub_diag. simpl.
  by rewrite Z.ltb_irrefl.
Qed.

(** [n / n] is [1.0]. *)
Lemma div_int_same (n : Z) : (0 < n)%Z -> Float64.div_int n n = 1%Q.
Proof.
  intros Hn. destruct n as [| p |]; try lia.
  unfold Float64.div_int. change 1%Q with (Float64.fl 1).
  apply fl_comp_exp.
  - field. discriminate.
  - unfold Float64.ulp_exp. simpl.
    by rewrite Pos.mul_1_r, ilog2_same.
Qed.

(** X6. Without an accepted submission nothing is solved and the rate is
    exactly [0.0]. *)
Theorem rate_zero_without_accepted (subs : list submission) :
  Forall has_problem subs -> filter accepted subs = [] ->
  exists st,
    calculate_stats subs = Ok st /\
    unique_solved st = 0 /\ problem_solving_rate st = 0%Q.
Proof.
  intros Hwf Hnone.
  destruct (calculate_stats_run_more subs Hwf)
    as (loc & st & Hrun & Hinv & Hmore & Hret & Hret').
  exists st. split; [done |].
  assert (Hs : unique_solved st = 0).
  { rewrite (ret_solved _ _ _ Hret), (inv_solved _ _ Hinv).
    unfold accepted_problems. rewrite Hnone. done. }
  split; [done |]. rewrite (ret_rate _ _ _ Hret), Hs.
  destruct (Nat.eqb_spec (unique_attempted st) 0) as [_ | Hnz]; [done |].
  rewrite div_int_zero by lia. reflexivity.
Qed.

Lemma rate_zero_without_accepted_witness :
  exists st,
    calculate_stats all_rejected = Ok st /\
    unique_solved st = 0 /\ problem_solving_rate st = 0%Q.
Proof.
  apply (rate_zero_without_accepted all_rejected).
  - repeat constructor; by eexists.
  - reflexivity.
Defined.

(** X7. When every attempted problem has an accepted submission, and there
    is at least one submission, the rate is exactly [100.0]. *)
Theorem rate_hundred_when_all_solved (subs : list submission) :
  Forall has_problem subs -> subs <> [] ->
  (forall pid, pid ∈ pids subs -> pid ∈ pids (filter accepted subs)) ->
  exists st,
    calculate_stats subs = Ok st /\
    unique_solved st = unique_attempted st /\
    problem_solving_rate st = 100%Q.
Proof.
  intros Hwf Hne Hall.
  destruct (calculate_stats_run_more subs Hwf)
    as (loc & st & Hrun & Hinv & Hmore & Hret & Hret').
  exists st. split; [done |].
  assert (Hsets : L.solved_problems loc = L.attempted_problems loc).
  { apply set_eq. intros pid. split.
    - apply (inv_solved_attempted _ _ Hinv).
    - rewrite (inv_attempted _ _ Hinv), (inv_solved _ _ Hinv).
      rewrite !elem_of_list_to_set. apply Hall. }
  assert (Heq : unique_solved st = unique_attempted st).
  { by rewrite (ret_solved _ _ _ Hret), (ret_attempted _ _ _ Hret), Hsets. }
  split; [done |]. rewrite (ret_rate _ _ _ Hret), Heq.
  destruct (Nat.eqb_spec (unique_attempted st) 0) as [Hz | Hnz].
  - exfalso. rewrite (ret_attempted _ _ _ Hret) in Hz.
    apply size_empty_iff in Hz. rewrite (inv_attempted _ _ Hinv) in Hz.
    apply Hne, pids_nil; [done |].
    unfold pids. destruct (problem_id <$> problems subs); [done |].
    set_solver.
  - rewrite div_int_same by lia. reflexivity.
Qed.

Lemma rate_hundred_when_all_solved_witness :
  exists st,
    calculate_stats accepted_twice = Ok st /\
    unique_solved st = unique_attempted st /\
    problem_solving_rate st = 100%Q.
Proof.
  apply (rate_hundred_when_all_solved accepted_twice).
  - repeat constructor; by eexists.
  - discriminate.
  - intros pid Hpid. exact Hpid.
Defined.

(** *** The order of the submissions *)

Lemma attempts_Permutation pid l l' :
  l ≡ₚ l' -> attempts pid l = attempts pid l'.
Proof. intros Hp. unfold attempts. by rewrite Hp. Qed.

Lemma pids_Permutation l l' : l ≡ₚ l' -> pids l ≡ₚ pids l'.
Proof. intros Hp. unfold pids, problems. by rewrite Hp. Qed.

Lemma first_seen_Permutation `{EqDecision A} (l l' : list A) :
  l ≡ₚ l' -> first_seen l ≡ₚ first_seen l'.
Proof.
  intros Hp. apply NoDup_Permutation; try apply first_seen_NoDup.
  intros x. rewrite !first_seen_elem_of. by rewrite Hp.
Qed.

Lemma max_list_with_ext {A} (f g : A -> nat) (l : list A) :
  (forall x, f x = g x) -> max_list_with f l = max_list_with g l.
Proof.
  intros Hfg. induction l as [| x l IH]; simpl; [done |].
  by rewrite Hfg, IH.
Qed.

(** X8. Apart from [first_attempt_solved] and [most_attempted_problems],
    the statistics do not depend on the order of the submissions. *)
Theorem calculate_stats_order (subs subs' : list submission) :
  subs ≡ₚ subs' -> Forall has_problem subs ->
  exists st st',
    calculate_stats subs = Ok st /\ calculate_stats subs' = Ok st' /\
    total_submissions st = total_submissions st' /\
    accepted_count st = accepted_count st' /\
    wrong_answer_count st = wrong_answer_count st' /\
    unique_attempted st = unique_attempted st' /\
    unique_solved st = unique_solved st' /\
    problem_solving_rate st = problem_solving_rate st' /\
    contests_participated st = contests_participated st' /\
    verdict_counter st = verdict_counter st' /\
    max_attempts st = max_attempts st' /\
    difficulty_solved st = difficulty_solved st' /\
    topic_solved st = topic_solved st'.
Proof.
  intros Hp Hwf.
  assert (Hwf' : Forall has_problem subs') by (by rewrite <- Hp).
  destruct (calculate_stats_run_more subs Hwf)
    as (loc & st & Hrun & Hinv & Hmore & Hret & Hretm).
  destruct (calculate_stats_run_more subs' Hwf')
    as (loc' & st' & Hrun' & Hinv' & Hmore' & Hret' & Hretm').
  exists st, st'. split; [done |]. split; [done |].
  assert (Hua : unique_attempted st = unique_attempted st').
  { rewrite (ret_attempted _ _ _ Hret), (ret_attempted _ _ _ Hret').
    rewrite (inv_attempted _ _ Hinv), (inv_attempted _ _ Hinv').
    unfold problems. by rewrite Hp. }
  assert (Hus : unique_solved st = unique_solved st').
  { rewrite (ret_solved _ _ _ Hret), (ret_solved _ _ _ Hret').
    rewrite (inv_solved _ _ Hinv), (inv_solved _ _ Hinv').
    unfold accepted_problems, problems. by rewrite Hp. }
  repeat split.
  - rewrite (ret_total _ _ _ Hret), (ret_total _ _ _ Hret'). by rewrite Hp.
  - rewrite (ret_accepted _ _ _ Hret), (ret_accepted _ _ _ Hret').
    rewrite (inv_accepted _ _ Hinv), (inv_accepted _ _ Hinv'). by rewrite Hp.
  - rewrite (ret_wrong _ _ _ Hretm), (ret_wrong _ _ _ Hretm').
    rewrite (inv_wrong _ _ Hmore), (inv_wrong _ _ Hmore'). by rewrite Hp.
  - done.
  - done.
  - rewrite (ret_rate _ _ _ Hret), (ret_rate _ _ _ Hret'). by rewrite Hua, Hus.
  - rewrite (ret_contests _ _ _ Hret), (ret_contests _ _ _ Hret').
    rewrite (inv_contests _ _ Hinv), (inv_contests _ _ Hinv').
    unfold problems. by rewrite Hp.
  - rewrite (ret_verdicts _ _ _ Hret), (ret_verdicts _ _ _ Hret').
    apply map_eq. intros v.
    rewrite (inv_verdicts _ _ Hinv), (inv_verdicts _ _ Hinv'). by rewrite Hp.
  - rewrite (ret_max _ _ _ Hretm), (ret_max _ _ _ Hretm'), !foldr_max_fmap.
    rewrite (max_list_with_ext _ (fun pid => attempts pid subs'))
      by (intros pid; by apply attempts_Permutation).
    by rewrite (first_seen_Permutation _ _ (pids_Permutation _ _ Hp)).
  - rewrite (ret_difficulty _ _ _ Hret), (ret_difficulty _ _ _ Hret').
    apply map_eq. intros r.
    rewrite (inv_difficulty _ _ Hinv), (inv_difficulty _ _ Hinv').
    destruct (decide (r = 0%Z)); [done |].
    unfold rated_accepted, accepted_problems, problems. by rewrite Hp.
  - rewrite (ret_topics _ _ _ Hret), (ret_topics _ _ _ Hret').
    apply map_eq. intros t.
    rewrite (inv_topics _ _ Hinv), (inv_topics _ _ Hinv').
    unfold tagged_accepted, accepted_problems, problems. by rewrite Hp.
Qed.

Lemma calculate_stats_order_witness :
  exists st st',
    calculate_stats three_submissions = Ok st /\
    calculate_stats (reverse three_submissions) = Ok st' /\
    total_submissions st = total_submissions st' /\
    accepted_count st = accepted_count st' /\
    wrong_answer_count st = wrong_answer_count st' /\
    unique_attempted st = unique_attempted st' /\
    unique_solved st = unique_solved st' /\
    problem_solving_rate st = problem_solving_rate st' /\
    contests_participated st = contests_participated st' /\
    verdict_counter st = verdict_counter st' /\
    max_attempts st = max_attempts st' /\
    difficulty_solved st = difficulty_solved st' /\
    topic_solved st = topic_solved st'.
Proof.
  apply (calculate_stats_order three_submissions (reverse three_submissions)).
  - symmetry. apply reverse_Permutation.
  - repeat constructor; by eexists.
Defined.

(** [first_attempt_solved] does depend on the order: read backwards, the
    accepted submission to 1-A is no longer the first one. *)
Example first_attempt_solved_depends_on_order :
  exists st st',
    calculate_stats three_submissions = Ok st /\
    calculate_stats (reverse three_submissions) = Ok st' /\
    first_attempt_solved st = 1 /\ first_attempt_solved st' = 0.
Proof. do 2 eexists. repeat split; vm_compute; reflexivity. Qed.

(** *** Two histories, one after the other *)

Lemma size_union_le `{Countable A} (X Y : gset A) :
  size (X ∪ Y) <= size X + size Y.
Proof.
  rewrite size_union_alt.
  assert (size (Y ∖ X) <= size Y) by (apply subseteq_size; set_solver).
  lia.
Qed.

(** X9. The statistics of two histories put one after the other: the
    totals, the accepted and wrong-answer counts and every verdict tally
    add up; the numbers of distinct problems attempted and solved are at
    least those of each part and at most their sum. *)
Theorem calculate_stats_app (l1 l2 : list submission) :
  Forall has_problem l1 -> Forall has_problem l2 ->
  exists st1 st2 st,
    calculate_stats l1 = Ok st1 /\ calculate_stats l2 = Ok st2 /\
    calculate_stats (l1 ++ l2) = Ok st /\
    total_submissions st = total_submissions st1 + total_submissions st2 /\
    accepted_count st = accepted_count st1 + accepted_count st2 /\
    wrong_answer_count st = wrong_answer_count st1 + wrong_answer_count st2 /\
    (forall v, default 0 (verdict_counter st !! v) =
               default 0 (verdict_counter st1 !! v) +
               default 0 (verdict_counter st2 !! v)) /\
    unique_attempted st1 <= unique_attempted st /\
    unique_attempted st2 <= unique_attempted st /\
    unique_attempted st <= unique_attempted st1 + unique_attempted st2 /\
    unique_solved st1 <= unique_solved st /\
    unique_solved st2 <= unique_solved st /\
    unique_solved st <= unique_solved st1 + unique_solved st2.
Proof.
  intros H1 H2.
  assert (H12 : Forall has_problem (l1 ++ l2)) by (by apply Forall_app).
  destruct (calculate_stats_run_more l1 H1)
    as (loc1 & st1 & Hrun1 & Hinv1 & Hmore1 & Hret1 & Hretm1).
  destruct (calculate_stats_run_more l2 H2)
    as (loc2 & st2 & Hrun2 & Hinv2 & Hmore2 & Hret2 & Hretm2).
  destruct (calculate_stats_run_more (l1 ++ l2) H12)
    as (loc & st & Hrun & Hinv & Hmore & Hret & Hretm).
  exists st1, st2, st. do 3 (split; [done |]).
  rewrite !(ret_total _ _ _ Hret), !(ret_total _ _ _ Hret1),
    !(ret_total _ _ _ Hret2).
  rewrite (ret_accepted _ _ _ Hret), (ret_accepted _ _ _ Hret1),
    (ret_accepted _ _ _ Hret2).
  rewrite (inv_accepted _ _ Hinv), (inv_accepted _ _ Hinv1),
    (inv_accepted _ _ Hinv2).
  rewrite (ret_wrong _ _ _ Hretm), (ret_wrong _ _ _ Hretm1),
    (ret_wrong _ _ _ Hretm2).
  rewrite (inv_wrong _ _ Hmore), (inv_wrong _ _ Hmore1),
    (inv_wrong _ _ Hmore2).
  rewrite (ret_attempted _ _ _ Hret), (ret_attempted _ _ _ Hret1),
    (ret_attempted _ _ _ Hret2).
  rewrite (inv_attempted _ _ Hinv), (inv_attempted _ _ Hinv1),
    (inv_attempted _ _ Hinv2).
  rewrite (ret_solved _ _ _ Hret), (ret_solved _ _ _ Hret1),
    (ret_solved _ _ _ Hret2).
  rewrite (inv_solved _ _ Hinv), (inv_solved _ _ Hinv1),
    (inv_solved _ _ Hinv2).
  rewrite (ret_verdicts _ _ _ Hret), (ret_verdicts _ _ _ Hret1),
    (ret_verdicts _ _ _ Hret2).
  unfold accepted_problems, problems.
  rewrite !filter_app, !omap_app, !fmap_app, !list_to_set_app_L, !length_app.
  split; [done |]. split; [done |]. split; [done |].
  split.
  { intros v. rewrite (inv_verdicts _ _ Hinv), (inv_verdicts _ _ Hinv1),
      (inv_verdicts _ _ Hinv2), !default_counted.
    by rewrite filter_app, length_app. }
  repeat split; try apply size_union_le; apply subseteq_size; set_solver.
Qed.

Lemma calculate_stats_app_witness :
  exists st1 st2 st,
    calculate_stats three_submissions = Ok st1 /\
    calculate_stats accepted_twice = Ok st2 /\
    calculate_stats (three_submissions ++ accepted_twice) = Ok st /\
    total_submissions st = total_submissions st1 + total_submissions st2 /\
    accepted_count st = accepted_count st1 + accepted_count st2 /\
    wrong_answer_count st = wrong_answer_count st1 + wrong_answer_count st2 /\
    (forall v, default 0 (verdict_counter st !! v) =
               default 0 (verdict_counter st1 !! v) +
               default 0 (verdict_counter st2 !! v)) /\
    unique_attempted st1 <= unique_attempted st /\
    unique_attempted st2 <= unique_attempted st /\
    unique_attempted st <= unique_attempted st1 + unique_attempted st2 /\
    unique_solved st1 <= unique_solved st /\
    unique_solved st2 <= unique_solved st /\
    unique_solved st <= unique_solved st1 + unique_solved st2.
Proof.
  apply (calculate_stats_app three_submissions accepted_twice);
    repeat constructor; by eexists.
Defined.

(** ** Further properties of [analyze_contests] *)

Lemma for_each_app {S A} (body : S -> A -> result S) l1 l2 s :
  for_each body (l1 ++ l2) s = s' ← for_each body l1 s; for_each body l2 s'.
Proof.
  revert s. induction l1 as [| x l1 IH]; intros s; [done |].
  rewrite <- app_comm_cons, !for_each_cons.
  destruct (body s x) as [s1 | e]; [| done].
  rewrite !bind_Ok. apply IH.
Qed.

Lemma ranks_snoc l name r x :
  ranks (l ++ [a_rating_change name r x]) = ranks l ++ [r].
Proof. unfold ranks. by rewrite omap_app. Qed.

Lemma ratings_snoc l name r x :
  ratings (l ++ [a_rating_change name r x]) = ratings l ++ [x].
Proof. unfold ratings. by rewrite omap_app. Qed.

Lemma ranks_in_snoc d l name r x :
  ranks_in d (l ++ [a_rating_change name r x]) =
  ranks_in d l ++ (if decide (division_of name = d) then [r] else []).
Proof.
  unfold ranks_in. rewrite filter_snoc.
  destruct (decide (division_of name = d)) as [E | E].
  - rewrite decide_True by (unfold in_division; simpl; congruence).
    apply ranks_snoc.
  - rewrite decide_False by (unfold in_division; simpl; congruence).
    by rewrite !app_nil_r.
Qed.

Lemma is_minimum_singleton r : is_minimum r [r].
Proof.
  split; [apply list_elem_of_singleton; done |].
  intros x ->%list_elem_of_singleton. lia.
Qed.

Lemma is_minimum_snoc b r xs :
  is_minimum b xs -> is_minimum (Z.min r b) (xs ++ [r]).
Proof.
  intros [Hin Hle]. split.
  - rewrite elem_of_app, list_elem_of_singleton.
    destruct (Z.min_spec r b) as [[_ ->] | [_ ->]]; [by right | by left].
  - intros x [Hx | ->%list_elem_of_singleton]%elem_of_app; [| lia].
    specialize (Hle x Hx). lia.
Qed.

Lemma record_overall_min best r :
  record_overall best r =
  Some (match best with Some b => Z.min r b | None => r end).
Proof.
  unfold record_overall. destruct best as [b |]; [| done].
  destruct (Z.ltb_spec r b); f_equal; lia.
Qed.

Lemma contests_inv_init : contests_inv [] A.init.
Proof.
  split; simpl; try done.
  - intros x Hx. by apply elem_of_nil in Hx.
  - by left.
Qed.

(** One iteration extends the invariant by one entry. *)
Lemma contests_body_inv l st name r x :
  contests_inv l st ->
  exists st',
    contests_body st (a_rating_change name r x) = Ok st' /\
    contests_inv (l ++ [a_rating_change name r x]) st'.
Proof.
  intros [Hnn Hbound Hatt Hover Hdiv].
  eexists. split; [apply contests_body_complete |].
  split; simpl.
  - lia.
  - intros y. rewrite ratings_snoc, elem_of_app, list_elem_of_singleton.
    intros [Hy | ->]; [specialize (Hbound y Hy) |]; lia.
  - rewrite ratings_snoc.
    destruct (Z.max_spec (A.highest_rating st) x) as [[_ ->] | [_ ->]].
    + right. rewrite elem_of_app, list_elem_of_singleton. by right.
    + destruct Hatt as [E | Hin]; [by left |].
      right. rewrite elem_of_app. by left.
  - rewrite record_overall_min, ranks_snoc.
    destruct (A.best_rank_overall st) as [b |].
    + by apply is_minimum_snoc.
    + subst l. apply is_minimum_singleton.
  - intros d. rewrite lookup_record_rank, ranks_in_snoc.
    specialize (Hdiv d).
    destruct (decide (division_of name = d)) as [E | Hne].
    + subst d.
      destruct (A.best_rank_by_division st !! division_of name) as [b |].
      * by apply is_minimum_snoc.
      * rewrite Hdiv. apply is_minimum_singleton.
    + by rewrite app_nil_r.
Qed.

Lemma contests_loop_inv l :
  Forall complete l ->
  exists st, for_each contests_body l A.init = Ok st /\ contests_inv l st.
Proof.
  induction l as [| e l IH] using rev_ind; intros Hc.
  - exists A.init. split; [done | apply contests_inv_init].
  - apply Forall_app in Hc as [Hc He]. rewrite Forall_singleton in He.
    destruct (complete_inv e He) as (n & r & x & ->).
    destruct (IH Hc) as (st & Hrun & Hinv).
    destruct (contests_body_inv l st n r x Hinv) as (st' & Hstep & Hinv').
    exists st'. split; [| done].
    by rewrite for_each_snoc, Hrun, bind_Ok.
Qed.

Lemma analyze_contests_run l :
  Forall complete l ->
  exists st,
    contests_inv l st /\
    analyze_contests l =
    Ok {| total_contests := length l;
          contests_skipped := "Not Available";
          best_rank_by_division := A.best_rank_by_division st;
          highest_rating := A.highest_rating st;
          best_rank_overall := A.best_rank_overall st |}.
Proof.
  intros Hc. destruct (contests_loop_inv l Hc) as (st & Hrun & Hinv).
  exists st. split; [done |]. unfold analyze_contests. by rewrite Hrun.
Qed.

Lemma division_of_label name : division_of name ∈ division_labels.
Proof.
  unfold division_of, division_labels.
  repeat (case_match; [set_solver |]). set_solver.
Qed.

Lemma ranks_in_elem_of d l r :
  r ∈ ranks_in d l -> r ∈ ranks l /\ d ∈ division_labels.
Proof.
  unfold ranks_in, ranks. rewrite !list_elem_of_omap.
  intros (e & [Hd He]%list_elem_of_filter & Hr). split; [by exists e |].
  unfold in_division in Hd. destruct (contestName e) as [n |]; [| done].
  injection Hd as <-. apply division_of_label.
Qed.

Lemma ranks_elem_of l r :
  Forall complete l -> r ∈ ranks l ->
  exists d, r ∈ ranks_in d l.
Proof.
  intros Hc. unfold ranks_in, ranks. rewrite list_elem_of_omap.
  intros (e & He & Hr). rewrite Forall_forall in Hc.
  destruct (Hc e He) as ([n Hn] & _).
  exists (division_of n). rewrite list_elem_of_omap. exists e.
  split; [| done]. apply list_elem_of_filter. split; [| done].
  unfold in_division. by rewrite Hn.
Qed.

(** X10. [highest_rating] is the largest new rating, or 0 when every new
    rating is negative or there is none: it is never negative, no new rating
    exceeds it, and it is 0 or one of the new ratings. *)
Theorem highest_rating_maximum (l : list rating_change) :
  Forall complete l ->
  exists out,
    analyze_contests l = Ok out /\
    (0 <= highest_rating out)%Z /\
    (forall x, x ∈ ratings l -> (x <= highest_rating out)%Z) /\
    (highest_rating out = 0%Z \/ highest_rating out ∈ ratings l).
Proof.
  intros Hc. destruct (analyze_contests_run l Hc) as (st & Hinv & ->).
  eexists. split; [reflexivity |]. simpl.
  split; [apply (inv_highest_nonneg _ _ Hinv) |].
  split; [apply (inv_highest_bound _ _ Hinv) |].
  apply (inv_highest_attained _ _ Hinv).
Qed.

Lemma highest_rating_maximum_witness :
  exists out,
    analyze_contests negative_rounds = Ok out /\
    (0 <= highest_rating out)%Z /\
    (forall x, x ∈ ratings negative_rounds -> (x <= highest_rating out)%Z) /\
    (highest_rating out = 0%Z \/ highest_rating out ∈ ratings negative_rounds).
Proof.
  apply (highest_rating_maximum negative_rounds).
  repeat constructor; by eexists.
Defined.

(** X11. [best_rank_overall] is [None] exactly for an empty list, and is
    otherwise the least rank of the list. *)
Theorem best_rank_overall_minimum (l : list rating_change) :
  Forall complete l ->
  exists out,
    analyze_contests l = Ok out /\
    total_contests out = length l /\
    match best_rank_overall out with
    | Some m => is_minimum m (ranks l)
    | None => l = []
    end.
Proof.
  intros Hc. destruct (analyze_contests_run l Hc) as (st & Hinv & ->).
  eexists. split; [reflexivity |]. simpl. split; [done |].
  apply (inv_overall _ _ Hinv).
Qed.

Lemma best_rank_overall_minimum_witness :
  exists out,
    analyze_contests two_rounds = Ok out /\
    total_contests out = length two_rounds /\
    match best_rank_overall out with
    | Some m => is_minimum m (ranks two_rounds)
    | None => two_rounds = []
    end.
Proof.
  apply (best_rank_overall_minimum two_rounds).
  repeat constructor; by eexists.
Defined.

(** X12. [best_rank_by_division] has a key for exactly the divisions that
    occur in the list, each with the least rank of the entries of that
    division; its keys are among the four labels. *)
Theorem best_rank_by_division_minimum (l : list rating_change) :
  Forall complete l ->
  exists out,
    analyze_contests l = Ok out /\
    (forall d,
       match best_rank_by_division out !! d with
       | Some m => is_minimum m (ranks_in d l)
       | None => ranks_in d l = []
       end) /\
    (forall d, is_Some (best_rank_by_division out !! d) ->
               d ∈ division_labels).
Proof.
  intros Hc. destruct (analyze_contests_run l Hc) as (st & Hinv & ->).
  eexists. split; [reflexivity |]. simpl.
  split; [apply (inv_division _ _ Hinv) |].
  intros d [m Hm]. pose proof (inv_division _ _ Hinv d) as Hd.
  rewrite Hm in Hd. destruct Hd as [Hin _].
  by apply ranks_in_elem_of in Hin as [_ ?].
Qed.

Lemma best_rank_by_division_minimum_witness :
  exists out,
    analyze_contests two_rounds = Ok out /\
    (forall d,
       match best_rank_by_division out !! d with
       | Some m => is_minimum m (ranks_in d two_rounds)
       | None => ranks_in d two_rounds = []
       end) /\
    (forall d, is_Some (best_rank_by_division out !! d) ->
               d ∈ division_labels).
Proof.
  apply (best_rank_by_division_minimum two_rounds).
  repeat constructor; by eexists.
Defined.

(** X13. The two rank fields agree: [best_rank_overall] is the least of the
    values of [best_rank_by_division], and both are empty together. *)
Theorem best_ranks_agree (l : list rating_change) :
  Forall complete l ->
  exists out,
    analyze_contests l = Ok out /\
    match best_rank_overall out with
    | Some m =>
        (exists d, best_rank_by_division out !! d = Some m) /\
        (forall d m', best_rank_by_division out !! d = Some m' -> (m <= m')%Z)
    | None => best_rank_by_division out = ∅
    end.
Proof.
  intros Hc. destruct (analyze_contests_run l Hc) as (st & Hinv & ->).
  eexists. split; [reflexivity |]. simpl.
  pose proof (inv_overall _ _ Hinv) as Hover.
  pose proof (inv_division _ _ Hinv) as Hdiv.
  destruct (A.best_rank_overall st) as [m |].
  - destruct Hover as [Hin Hle]. split.
    + destruct (ranks_elem_of l m Hc Hin) as [d Hd].
      exists d. specialize (Hdiv d).
      destruct (A.best_rank_by_division st !! d) as [m' |].
      * destruct Hdiv as [Hin' Hle']. f_equal.
        apply ranks_in_elem_of in Hin' as [Hin' _].
        specialize (Hle m' Hin'). specialize (Hle' m Hd). lia.
      * rewrite Hdiv in Hd. by apply elem_of_nil in Hd.
    + intros d m' Hm'. specialize (Hdiv d). rewrite Hm' in Hdiv.
      destruct Hdiv as [Hin' _]. apply ranks_in_elem_of in Hin' as [Hin' _].
      by apply Hle.
  - subst l. apply map_eq. intros d. rewrite lookup_empty.
    specialize (Hdiv d).
    destruct (A.best_rank_by_division st !! d) as [m' |]; [| done].
    destruct Hdiv as [Hin' _]. by apply elem_of_nil in Hin'.
Qed.

Lemma best_ranks_agree_witness :
  exists out,
    analyze_contests two_rounds = Ok out /\
    match best_rank_overall out with
    | Some m =>
        (exists d, best_rank_by_division out !! d = Some m) /\
        (forall d m', best_rank_by_division out !! d = Some m' -> (m <= m')%Z)
    | None => best_rank_by_division out = ∅
    end.
Proof.
  apply (best_ranks_agree two_rounds).
  repeat constructor; by eexists.
Defined.

Lemma contests_body_incomplete st entry :
  ~ complete entry ->
  contests_body st entry = Raise (KeyError (first_missing entry)).
Proof.
  intros Hn. unfold contests_body, first_missing, complete in *.
  destruct entry as [[n |] [r |] [x |]]; simpl in *; try done.
  exfalso. apply Hn. by repeat split.
Qed.

(** X14. [analyze_contests] stops at the first entry that lacks a key and
    raises [KeyError] for the first key that entry lacks, in the order
    contestName, rank, newRating, whatever follows it. *)
Theorem analyze_contests_first_missing_key
    (pre post : list rating_change) (entry : rating_change) :
  Forall complete pre -> ~ complete entry ->
  analyze_contests (pre ++ entry :: post) =
  Raise (KeyError (first_missing entry)).
Proof.
  intros Hpre Hentry. unfold analyze_contests.
  destruct (contests_loop_ok pre A.init Hpre) as [st Hst].
  rewrite for_each_app, Hst, bind_Ok, for_each_cons.
  by rewrite (contests_body_incomplete st entry Hentry).
Qed.

Lemma analyze_contests_first_missing_key_witness :
  analyze_contests (two_rounds ++ unranked_round :: negative_rounds) =
  Raise (KeyError "rank").
Proof.
  apply (analyze_contests_first_missing_key two_rounds negative_rounds
           unranked_round).
  - repeat constructor; by eexists.
  - intros (_ & [r Hr] & _). discriminate.
Defined.

(** ** Further properties of [get_user_global_country_rank] *)

Section rank_more_facts.
Context (lower : string -> string).

(** The scan stops at the first match and reads nothing after it. *)
Lemma scan_rank_prefix (h : string) pre u post i :
  Forall (differs lower h) pre -> matches lower h u ->
  scan_rank lower (Some h) (pre ++ u :: post) i =
  Ok (Some (i + Z.of_nat (length pre) + 1)%Z).
Proof.
  revert i. induction pre as [| v pre IH]; intros i Hd (h' & Hu & Heq).
  - rewrite app_nil_l, (scan_rank_cons lower h u h' post i Hu).
    apply String.eqb_eq in Heq. rewrite Heq. simpl. do 2 f_equal. lia.
  - apply Forall_cons in Hd as [(hv & Hv & Hne) Hd].
    rewrite <- app_comm_cons, (scan_rank_cons lower h v hv _ i Hv).
    apply String.eqb_neq in Hne. rewrite Hne.
    rewrite IH; [| done | by exists h'].
    simpl length. do 2 f_equal. lia.
Qed.

(** The scan raises at a user without a handle that it reaches. *)
Lemma scan_rank_nameless (h : string) pre u post i :
  Forall (differs lower h) pre -> ru_handle u = None ->
  scan_rank lower (Some h) (pre ++ u :: post) i = Raise (KeyError "handle").
Proof.
  revert i. induction pre as [| v pre IH]; intros i Hd Hu.
  - simpl. by rewrite Hu.
  - apply Forall_cons in Hd as [(hv & Hv & Hne) Hd].
    rewrite <- app_comm_cons, (scan_rank_cons lower h v hv _ i Hv).
    apply String.eqb_neq in Hne. rewrite Hne. by apply IH.
Qed.

(** A scan that finds nothing has seen only other handles. *)
Lemma scan_rank_none (h : string) users i :
  Forall named users -> scan_rank lower (Some h) users i = Ok None ->
  Forall (differs lower h) users.
Proof.
  revert i. induction users as [| u users IH]; intros i Hn Hscan;
    [constructor |].
  apply Forall_cons in Hn as [[h' Hu] Hn].
  rewrite (scan_rank_cons lower h u h' users i Hu) in Hscan.
  destruct (String.eqb_spec (lower h') (lower h)) as [Heq | Hne]; [done |].
  constructor; [by exists h' | by eapply IH].
Qed.

Lemma country_users_app c l1 l2 :
  country_users c (l1 ++ l2) = country_users c l1 ++ country_users c l2.
Proof. apply filter_app. Qed.

Lemma country_users_cons_in c u l :
  ru_country u = c -> country_users c (u :: l) = u :: country_users c l.
Proof. intros Hu. unfold country_users. by rewrite filter_cons, decide_True. Qed.

Lemma Forall_country_users {P : rated_user -> Prop} c l :
  Forall P l -> Forall P (country_users c l).
Proof. apply Forall_filter_country. Qed.

Lemma country_users_length c l : length (country_users c l) <= length l.
Proof. apply length_filter. Qed.

Lemma get_rank_unfold user_info rated_users :
  get_user_global_country_rank lower user_info rated_users =
  (global_rank ← scan_rank lower (ui_handle user_info) rated_users 0;
   country_rank ←
     scan_rank lower (ui_handle user_info)
       (country_users (ui_country user_info) rated_users) 0;
   global_percentile ← percentile global_rank (length rated_users);
   country_percentile ←
     percentile country_rank
       (length (country_users (ui_country user_info) rated_users));
   mret {| global_rank := global_rank;
           global_percentile := global_percentile;
           country_rank := country_rank;
           country_percentile := country_percentile;
           country := ui_country user_info |}).
Proof. reflexivity. Qed.

(** X15. The first user whose handle has the [str.lower()] of the
    target's decides: when that user
    is at index [k] and has the target's country, [global_rank] is [k + 1],
    [country_rank] is one more than the number of users of that country
    before it, which is at most [global_rank], and no user after it is read
    (there may be further users with the same handle or without any). *)
Theorem first_match_decides (user_info : user_info_t) (h : string)
    (pre post : list rated_user) (u : rated_user) :
  ui_handle user_info = Some h ->
  Forall (differs lower h) pre -> matches lower h u ->
  ru_country u = ui_country user_info ->
  let g := (Z.of_nat (length pre) + 1)%Z in
  let c := (Z.of_nat (length (country_users (ui_country user_info) pre)) + 1)%Z
  in
  exists out,
    get_user_global_country_rank lower user_info (pre ++ u :: post) = Ok out /\
    global_rank out = Some g /\ country_rank out = Some c /\
    (1 <= c <= g)%Z.
Proof.
  intros Hh Hpre Hu Hc g c.
  assert (Hcg : (1 <= c <= g)%Z).
  { pose proof (country_users_length (ui_country user_info) pre).
    unfold c, g. lia. }
  assert (Hg : scan_rank lower (Some h) (pre ++ u :: post) 0 = Ok (Some g)).
  { by rewrite (scan_rank_prefix h pre u post 0 Hpre Hu). }
  assert (Hcr : scan_rank lower (Some h)
                  (country_users (ui_country user_info) (pre ++ u :: post)) 0
                = Ok (Some c)).
  { rewrite country_users_app, (country_users_cons_in _ _ _ Hc).
    by rewrite (scan_rank_prefix h _ u _ 0 (Forall_country_users _ _ Hpre) Hu). }
  destruct (percentile_position g (length (pre ++ u :: post))) as [Hpg _].
  { rewrite length_app. simpl. unfold g. lia. }
  destruct (percentile_position c
    (length (country_users (ui_country user_info) (pre ++ u :: post))))
    as [Hpc _].
  { rewrite country_users_app, (country_users_cons_in _ _ _ Hc), length_app.
    simpl. unfold c. lia. }
  rewrite get_rank_unfold, Hh, Hg, bind_Ok, Hcr, bind_Ok, Hpg, bind_Ok.
  rewrite Hpc, bind_Ok.
  eexists. split; [reflexivity |]. simpl. done.
Qed.

(** X16. With a target handle and a handle for every user, the function
    returns, every rank it finds is a position of its list, a country rank
    is found only if a global rank is, and a percentile is present exactly
    when its rank is, then within [[0, 100]]. *)
Theorem ranks_within_bounds (user_info : user_info_t)
    (rated_users : list rated_user) (h : string) :
  ui_handle user_info = Some h -> Forall named rated_users ->
  exists out,
    get_user_global_country_rank lower user_info rated_users = Ok out /\
    position_in (length rated_users) (global_rank out) /\
    position_in
      (length (country_users (ui_country user_info) rated_users))
      (country_rank out) /\
    (global_rank out = None -> country_rank out = None) /\
    percentile_in_range (global_percentile out) /\
    percentile_in_range (country_percentile out) /\
    (global_percentile out = None <-> global_rank out = None) /\
    (country_percentile out = None <-> country_rank out = None).
Proof.
  intros Hh Hn.
  destruct (scan_rank_position lower h rated_users 0 Hn) as (g & Hg & Hgpos).
  destruct (scan_rank_position lower h
    (country_users (ui_country user_info) rated_users) 0
    (Forall_country_users _ _ Hn)) as (c & Hc & Hcpos).
  assert (Hgp : position_in (length rated_users) g)
    by (destruct g; [simpl; lia | done]).
  assert (Hcp : position_in
    (length (country_users (ui_country user_info) rated_users)) c)
    by (destruct c; [simpl; lia | done]).
  assert (Himp : g = None -> c = None).
  { intros ->. apply scan_rank_none in Hg; [| done].
    rewrite (scan_rank_absent lower h _ 0 (Forall_country_users _ _ Hg)) in Hc.
    congruence. }
  assert (Hperc : forall n r, position_in n r ->
    exists p, percentile r n = Ok p /\ percentile_in_range p /\
              (p = None <-> r = None)).
  { intros n [r |] Hr.
    - destruct (percentile_position r n Hr) as [Hp Hb].
      eexists. split; [exact Hp |]. split; [exact Hb | done].
    - by exists None. }
  destruct (Hperc _ _ Hgp) as (pg & Hpg & Hpgr & Hpgn).
  destruct (Hperc _ _ Hcp) as (pc & Hpc & Hpcr & Hpcn).
  rewrite get_rank_unfold, Hh, Hg, bind_Ok, Hc, bind_Ok, Hpg, bind_Ok.
  rewrite Hpc, bind_Ok.
  eexists. split; [reflexivity |]. simpl. done.
Qed.

Lemma percentile_first (n : nat) :
  0 < n -> percentile (Some 1%Z) n = Ok (Some 100%Q).
Proof.
  intros Hn. unfold percentile, truediv. simpl.
  destruct (Z.eqb_spec (Z.of_nat n) 0) as [E | _]; [lia |].
  rewrite bind_Ok, div_int_zero by lia. reflexivity.
Qed.

(** X17. A target whose handle is that of the first user, in its own
    country, is ranked 1 in both lists with both percentiles exactly
    [100.0], whoever follows. *)
Theorem first_user_tops (user_info : user_info_t) (h : string)
    (u : rated_user) (rest : list rated_user) :
  ui_handle user_info = Some h -> matches lower h u ->
  ru_country u = ui_country user_info ->
  get_user_global_country_rank lower user_info (u :: rest) =
  Ok {| global_rank := Some 1%Z;
        global_percentile := Some 100%Q;
        country_rank := Some 1%Z;
        country_percentile := Some 100%Q;
        country := ui_country user_info |}.
Proof.
  intros Hh Hu Hc.
  assert (Hscan : forall post, scan_rank lower (Some h) (u :: post) 0 = Ok (Some 1%Z)).
  { intros post. apply (scan_rank_prefix h [] u post 0 (Forall_nil_2 _) Hu). }
  rewrite get_rank_unfold, Hh, Hscan, bind_Ok.
  rewrite (country_users_cons_in _ _ _ Hc), Hscan, bind_Ok.
  by rewrite !percentile_first by (simpl; lia).
Qed.

(** X18. A user without a handle that the scan reaches, every user before
    it having a handle whose [str.lower()] is not that of the target's,
    makes the function raise [KeyError('handle')]. *)
Theorem nameless_user_raises (user_info : user_info_t) (h : string)
    (pre post : list rated_user) (u : rated_user) :
  ui_handle user_info = Some h ->
  Forall (differs lower h) pre -> ru_handle u = None ->
  get_user_global_country_rank lower user_info (pre ++ u :: post) =
  Raise (KeyError "handle").
Proof.
  intros Hh Hpre Hu. rewrite get_rank_unfold, Hh.
  by rewrite (scan_rank_nameless h pre u post 0 Hpre Hu).
Qed.

(** X19. Without a target handle every non-empty list raises: at its
    first user, [KeyError('handle')] if that user has no handle and
    [AttributeError] otherwise. *)
Theorem target_without_handle_raises (user_info : user_info_t)
    (u : rated_user) (rest : list rated_user) :
  ui_handle user_info = None ->
  get_user_global_country_rank lower user_info (u :: rest) =
  Raise (match ru_handle u with
         | Some _ => AttributeError
         | None => KeyError "handle"
         end).
Proof.
  intros Hh. rewrite get_rank_unfold, Hh. simpl.
  by destruct (ru_handle u).
Qed.

Lemma scan_rank_lower (h h' : string) users i :
  lower h = lower h' ->
  scan_rank lower (Some h) users i = scan_rank lower (Some h') users i.
Proof.
  intros Hl. revert i. induction users as [| u users IH]; intros i; [done |].
  simpl. destruct (ru_handle u) as [hu |]; [| done]. simpl.
  rewrite Hl. by rewrite IH.
Qed.

(** X20. The lookup does not depend on the case of the target's handle:
    two targets of one country whose handles have the same [str.lower()]
    get the same result. *)
Theorem target_case_insensitive (user_info user_info' : user_info_t)
    (h h' : string) (rated_users : list rated_user) :
  ui_handle user_info = Some h -> ui_handle user_info' = Some h' ->
  lower h = lower h' -> ui_country user_info = ui_country user_info' ->
  get_user_global_country_rank lower user_info rated_users =
  get_user_global_country_rank lower user_info' rated_users.
Proof.
  intros Hh Hh' Hl Hc. rewrite !get_rank_unfold, Hh, Hh', Hc.
  by rewrite !(scan_rank_lower h h' _ 0 Hl).
Qed.

End rank_more_facts.

Lemma first_match_decides_witness :
  exists out,
    get_user_global_country_rank ascii_lower bob
      ([a_user "Alice" (Some "BD"); a_user "tourist" None] ++
       a_user "Bob" (Some "BD") :: [nameless; a_user "BOB" None]) = Ok out /\
    global_rank out = Some 3%Z /\ country_rank out = Some 2%Z /\
    (1 <= 2 <= 3)%Z.
Proof.
  apply (first_match_decides ascii_lower bob "bob"
           [a_user "Alice" (Some "BD"); a_user "tourist" None]
           [nameless; a_user "BOB" None] (a_user "Bob" (Some "BD"))).
  - reflexivity.
  - repeat constructor; eexists; (split; [reflexivity | by vm_compute]).
  - by exists "Bob".
  - reflexivity.
Defined.

Lemma ranks_within_bounds_witness :
  exists out,
    get_user_global_country_rank ascii_lower bob three_users = Ok out /\
    position_in (length three_users) (global_rank out) /\
    position_in
      (length (country_users (ui_country bob) three_users))
      (country_rank out) /\
    (global_rank out = None -> country_rank out = None) /\
    percentile_in_range (global_percentile out) /\
    percentile_in_range (country_percentile out) /\
    (global_percentile out = None <-> global_rank out = None) /\
    (country_percentile out = None <-> country_rank out = None).
Proof.
  apply (ranks_within_bounds ascii_lower bob three_users "bob").
  - reflexivity.
  - repeat constructor; by eexists.
Defined.

Lemma first_user_tops_witness :
  get_user_global_country_rank ascii_lower alice three_users =
  Ok {| global_rank := Some 1%Z;
        global_percentile := Some 100%Q;
        country_rank := Some 1%Z;
        country_percentile := Some 100%Q;
        country := ui_country alice |}.
Proof.
  apply (first_user_tops ascii_lower alice "alice" (a_user "Alice" (Some "BD"))).
  - reflexivity.
  - by exists "Alice".
  - reflexivity.
Defined.

Lemma nameless_user_raises_witness :
  get_user_global_country_rank ascii_lower carol
    ([a_user "Alice" (Some "BD")] ++ nameless :: three_users) =
  Raise (KeyError "handle").
Proof.
  apply (nameless_user_raises ascii_lower carol "carol").
  - reflexivity.
  - repeat constructor; eexists; (split; [reflexivity | by vm_compute]).
  - reflexivity.
Defined.

Lemma target_without_handle_raises_witness :
  get_user_global_country_rank ascii_lower nobody three_users = Raise AttributeError.
Proof.
  apply (target_without_handle_raises ascii_lower nobody (a_user "Alice" (Some "BD"))).
  reflexivity.
Defined.

Lemma target_case_insensitive_witness :
  get_user_global_country_rank ascii_lower bob three_users =
  get_user_global_country_rank ascii_lower bob_upper three_users.
Proof.
  apply (target_case_insensitive ascii_lower bob bob_upper "bob" "BOB").
  - reflexivity.
  - reflexivity.
  - by vm_compute.
  - reflexivity.
Defined.

(** ** Properties of [cached_fetch] *)

Section fetch_facts.
Context {data : Type}.
Implicit Types (cache : gmap string (data * Float64.float)).
Implicit Types (r : response (data := data)).

Lemma fetch_fresh_frame url now r cache log url' :
  url' <> url ->
  cache_after (fetch_fresh url now r cache log) !! url' = cache !! url'.
Proof.
  intros Hne. unfold fetch_fresh, fetch_failed.
  destruct r as [e | [status |] comment [res |]]; simpl; try done;
    destruct (String.eqb status "OK"); simpl; try done;
    by rewrite lookup_insert_ne.
Qed.

Lemma fetch_fresh_keeps url now r cache log url' :
  is_Some (cache !! url') ->
  is_Some (cache_after (fetch_fresh url now r cache log) !! url').
Proof.
  intros Hin. unfold fetch_fresh, fetch_failed.
  destruct r as [e | [status |] comment [res |]]; simpl; try done;
    destruct (String.eqb status "OK"); simpl; try done.
  rewrite lookup_insert. by case_decide.
Qed.

Lemma fetch_fresh_coherent url now r cache log :
  match returned (fetch_fresh url now r cache log) with
  | (Some d, None) =>
      cache_after (fetch_fresh url now r cache log) !! url = Some (d, now)
  | (None, Some _) => cache_after (fetch_fresh url now r cache log) = cache
  | _ => False
  end.
Proof.
  unfold fetch_fresh, fetch_failed.
  destruct r as [e | [status |] comment [res |]]; simpl; try done;
    destruct (String.eqb status "OK"); simpl; try done.
  by rewrite lookup_insert_eq.
Qed.

Lemma fetch_fresh_returned url now r cache cache' log log' :
  returned (fetch_fresh url now r cache log) =
  returned (fetch_fresh url now r cache' log').
Proof.
  unfold fetch_fresh, fetch_failed.
  destruct r as [e | [status |] comment [res |]]; simpl; try done;
    by destruct (String.eqb status "OK").
Qed.

(** The test [now - timestamp < expiry] compares the binary64 difference
    with [expiry]. A call at most [expiry - 1] seconds after the timestamp
    passes it. *)
Lemma served_before_expiry (now later : Float64.float) (expiry : Z) :
  (0 <= later - now <= inject_Z (expiry - 1))%Q -> (expiry <= 2 ^ 51)%Z ->
  float_lt_int (Float64.sub later now) expiry = true.
Proof.
  intros Hgap Hexp. unfold float_lt_int, Float64.sub.
  destruct (fl_bounded (later - now) (expiry - 1) Hgap) as [_ Hle];
    [lia |].
  assert (Hlt : (Float64.fl (later - now) < inject_Z expiry)%Q).
  { eapply Qle_lt_trans; [exact Hle |]. rewrite <- Zlt_Qlt. lia. }
  apply Qlt_alt in Hlt. unfold Qcompare in *. by rewrite Hlt.
Qed.

(** X21. What a fetch stores is served again: after a fetch that found no
    live entry and got an OK answer with result [res], every later call for
    the same URL that passes the test [now - timestamp < expiry] of the
    code, on the difference as binary64 subtraction gives it, returns [res]
    from the cache, whatever the network would answer, and leaves the cache
    as it is. An exact gap below [expiry] does not ensure the test: see
    [rounded_gap_reaches_expiry]. *)
Theorem fetched_result_is_served_again (url : string) (expiry : Z)
    (now later : Float64.float) (comment : option string) (res : data)
    r cache :
  stale cache url expiry now ->
  float_lt_int (Float64.sub later now) expiry = true ->
  let first :=
    cached_fetch url expiry now (Body (Some "OK") comment (Some res)) cache in
  returned first = (Some res, None) /\
  cached_fetch url expiry later r (cache_after first) =
  {| returned := (Some res, None);
     cache_after := cache_after first;
     logged := [(INFO, "Cache hit for URL: " +:+ url)] |}.
Proof.
  intros Hstale Hlater first.
  assert (Hfirst : returned first = (Some res, None) /\
                   cache_after first !! url = Some (res, now)).
  { unfold first, cached_fetch, stale in *.
    destruct (cache !! url) as [[d ts] |]; [rewrite Hstale |];
      simpl; by rewrite lookup_insert_eq. }
  destruct Hfirst as [Hret Hentry]. split; [done |].
  unfold cached_fetch. by rewrite Hentry, Hlater.
Qed.

(** X22. A call touches no entry but that of its URL, and removes none. *)
Theorem cached_fetch_frame (url : string) (expiry : Z)
    (now : Float64.float) r cache :
  (forall url', url' <> url ->
     cache_after (cached_fetch url expiry now r cache) !! url' =
     cache !! url') /\
  (forall url', is_Some (cache !! url') ->
     is_Some (cache_after (cached_fetch url expiry now r cache) !! url')).
Proof.
  unfold cached_fetch. split; intros url' H.
  - destruct (cache !! url) as [[d ts] |]; [| by apply fetch_fresh_frame].
    destruct (float_lt_int _ _); [done | by apply fetch_fresh_frame].
  - destruct (cache !! url) as [[d ts] |]; [| by apply fetch_fresh_keeps].
    destruct (float_lt_int _ _); [done | by apply fetch_fresh_keeps].
Qed.

(** X23. A call returns either data and no error, and then the cache holds
    that data for the URL, or an error and no data, and then the cache is
    unchanged: a failure is never stored. *)
Theorem cached_fetch_coherent (url : string) (expiry : Z)
    (now : Float64.float) r cache :
  match returned (cached_fetch url expiry now r cache) with
  | (Some d, None) =>
      exists timestamp,
        cache_after (cached_fetch url expiry now r cache) !! url =
        Some (d, timestamp)
  | (None, Some _) => cache_after (cached_fetch url expiry now r cache) = cache
  | _ => False
  end.
Proof.
  unfold cached_fetch.
  destruct (cache !! url) as [[d ts] |] eqn:Hc.
  - destruct (float_lt_int _ _); simpl; [by exists ts |].
    pose proof (fetch_fresh_coherent url now r cache
                  [(INFO, "Cache expired for URL: " +:+ url)]) as H.
    destruct (returned _) as [[d' |] [e |]]; try done. by exists now.
  - pose proof (fetch_fresh_coherent url now r cache []) as H.
    destruct (returned _) as [[d' |] [e |]]; try done. by exists now.
Qed.

(** X24. An entry that has expired is never served: with no live entry
    for the URL, what is returned is what would be returned on an empty
    cache. *)
Theorem expired_entry_not_served (url : string) (expiry : Z)
    (now : Float64.float) r cache :
  stale cache url expiry now ->
  returned (cached_fetch url expiry now r cache) =
  returned (cached_fetch url expiry now r ∅).
Proof.
  unfold stale, cached_fetch. intros Hstale. rewrite lookup_empty.
  destruct (cache !! url) as [[d ts] |]; [rewrite Hstale |];
    apply fetch_fresh_returned.
Qed.

End fetch_facts.

Lemma fetched_result_is_served_again_witness :
  let first :=
    cached_fetch (user_rating_url "bob") 60 1070%Q
      (Body (Some "OK") None (Some 8)) sample_cache in
  returned first = (Some 8, None) /\
  cached_fetch (user_rating_url "bob") 60 1100%Q (Failure "timed out")
    (cache_after first) =
  {| returned := (Some 8, None);
     cache_after := cache_after first;
     logged := [(INFO, "Cache hit for URL: " +:+ user_rating_url "bob")] |}.
Proof.
  apply (fetched_result_is_served_again (user_rating_url "bob") 60
           1070%Q 1100%Q None 8 (Failure "timed out") sample_cache).
  - by vm_compute.
  - by vm_compute.
Defined.

(** A call at 60.3, after a fetch at 0.3, is less than 60 seconds later
    when the two doubles are subtracted exactly, but their binary64
    difference is 60.0: the entry has expired and the call goes to the
    network. *)
Example rounded_gap_reaches_expiry :
  let t0 := Float64.fl (3 # 10) in
  let t1 := Float64.fl (603 # 10) in
  (t1 - t0 < 60)%Q /\
  Float64.sub t1 t0 = 60%Q /\
  float_lt_int (Float64.sub t1 t0) 60 = false /\
  let first :=
    cached_fetch (user_rating_url "bob") 60 t0
      (Body (Some "OK") None (Some 8)) ∅ in
  returned first = (Some 8, None) /\
  returned (cached_fetch (user_rating_url "bob") 60 t1 (Failure "timed out")
              (cache_after first)) = (None, Some "timed out").
Proof. vm_compute. repeat split; congruence. Qed.

(** The kernel's binary64 subtraction gives the same difference. *)
Example rounded_gap_kernel :
  Float64.of_prim
    (PrimFloat.sub
       (PrimFloat.div (Float64.prim_of_Z 603) (Float64.prim_of_Z 10))
       (PrimFloat.div (Float64.prim_of_Z 3) (Float64.prim_of_Z 10))) =
  Some 60%Q.
Proof. vm_compute. reflexivity. Qed.

Lemma expired_entry_not_served_witness :
  returned (cached_fetch (user_rating_url "bob") 60 1070%Q
              (Failure "timed out") sample_cache) =
  returned (cached_fetch (user_rating_url "bob") 60 1070%Q
              (Failure "timed out") ∅).
Proof.
  apply (expired_entry_not_served (user_rating_url "bob") 60 1070%Q
           (Failure "timed out") sample_cache).
  by vm_compute.
Defined.

(** ** The URLs of the fetch functions *)

Lemma string_length_append (s t : string) :
  String.length (s +:+ t) = String.length s + String.length t.
Proof.
  induction s as [| c s IH]; [done |].
  rewrite append_cons. simpl. by rewrite IH.
Qed.

Lemma append_inj_l (s t t' : string) : s +:+ t = s +:+ t' -> t = t'.
Proof.
  induction s as [| c s IH]; [done |].
  rewrite !append_cons. intros [= H]. by apply IH.
Qed.

Lemma append_inj_r (s s' t : string) : s +:+ t = s' +:+ t -> s = s'.
Proof.
  revert s'. induction s as [| c s IH]; intros [| c' s'] H.
  - done.
  - apply (f_equal String.length) in H.
    rewrite append_empty, append_cons in H. simpl in H.
    rewrite string_length_append in H. lia.
  - apply (f_equal String.length) in H.
    rewrite append_empty, append_cons in H. simpl in H.
    rewrite string_length_append in H. lia.
  - rewrite !append_cons in H. injection H as -> H. f_equal. by apply IH.
Qed.

Lemma url_of_eq (req req' : request) :
  url_of req = url_of req' -> req = req'.
Proof.
  unfold url_of, user_info_url, user_status_url, user_rating_url,
    rated_users_url.
  destruct req as [h | h | h |], req' as [h' | h' | h' |];
    intros H%append_inj_l; try (vm_compute in H; congruence).
  f_equal. apply append_inj_l in H. by apply append_inj_r in H.
Qed.

(** X25. Two requests are fetched from the same URL exactly when they are
    the same request: the cache never confuses two handles or two kinds of
    request. *)
Theorem url_of_inj (req req' : request) :
  url_of req = url_of req' <-> req = req'.
Proof.
  split.
  - apply url_of_eq.
  - by intros ->.
Qed.

(** X26. Fetching for one request leaves what is cached for every other
    request as it was. *)
Theorem fetch_leaves_other_requests {data : Type} (req req' : request)
    (now : Float64.float) (r : response (data := data))
    (cache : gmap string (data * Float64.float)) :
  req' <> req ->
  cache_after (fetch_json (url_of req) now r cache) !! url_of req' =
  cache !! url_of req'.
Proof.
  intros Hne. unfold fetch_json, cached_fetch.
  assert (Hurl : url_of req' <> url_of req)
    by (intros H; by apply Hne, url_of_eq).
  destruct (cache !! url_of req) as [[d ts] |];
    [destruct (float_lt_int _ _); [done |] |];
    by apply fetch_fresh_frame.
Qed.

Lemma fetch_leaves_other_requests_witness :
  cache_after
    (fetch_user_info "bob" 1070%Q (Body (Some "OK") None (Some 8))
       sample_cache) !! url_of (UserRating "bob") =
  sample_cache !! url_of (UserRating "bob").
Proof.
  apply (fetch_leaves_other_requests (UserInfo "bob") (UserRating "bob")).
  discriminate.
Defined.

(** ** The best contest position *)

Lemma rank_lt_trans a b c :
  rank_lt b a = false -> rank_lt c b = false -> rank_lt c a = false.
Proof.
  destruct a, b, c; simpl; try done;
    rewrite ?Z.ltb_ge; intros; lia.
Qed.

Lemma rank_lt_irrefl a : rank_lt a a = false.
Proof. destruct a; simpl; [apply Z.ltb_irrefl | done]. Qed.

Lemma rank_lt_asym a b : rank_lt a b = true -> rank_lt b a = false.
Proof.
  destruct a, b; simpl; try done. rewrite Z.ltb_lt, Z.ltb_ge. lia.
Qed.

(** [min] returns an element that none of the others is less than. *)
Lemma min_from_least first others :
  min_from first others ∈ first :: others /\
  forall x, x ∈ first :: others -> rank_lt x (min_from first others) = false.
Proof.
  unfold min_from. revert first.
  induction others as [| y others IH]; intros first; simpl.
  - split; [apply list_elem_of_singleton; done |].
    intros x ->%list_elem_of_singleton. apply rank_lt_irrefl.
  - destruct (IH (if rank_lt y first then y else first)) as [Hin Hle].
    set (best := if rank_lt y first then y else first) in *.
    assert (Hfirst : rank_lt first best = false).
    { unfold best. destruct (rank_lt y first) eqn:E;
        [by apply rank_lt_asym | apply rank_lt_irrefl]. }
    assert (Hy : rank_lt y best = false).
    { unfold best. destruct (rank_lt y first) eqn:E;
        [apply rank_lt_irrefl | done]. }
    assert (Hbest : rank_lt best (foldl
      (fun best x => if rank_lt x best then x else best) best others) = false).
    { apply Hle, elem_of_cons. by left. }
    split.
    + apply elem_of_cons in Hin as [-> | Hin].
      * unfold best. destruct (rank_lt y first); set_solver.
      * set_solver.
    + intros x [-> | [-> | Hx]%elem_of_cons]%elem_of_cons.
      * by apply (rank_lt_trans _ best).
      * by apply (rank_lt_trans _ best).
      * apply Hle, elem_of_cons. by right.
Qed.

Lemma min_from_spec first others :
  match min_from first others with
  | Finite m =>
      Finite m ∈ first :: others /\
      forall x, Finite x ∈ first :: others -> (m <= x)%Z
  | Infinity => forall x, Finite x ∉ first :: others
  end.
Proof.
  destruct (min_from_least first others) as [Hin Hle].
  destruct (min_from first others) as [m |].
  - split; [done |]. intros x Hx. specialize (Hle _ Hx). simpl in Hle.
    by apply Z.ltb_ge in Hle.
  - intros x Hx. by specialize (Hle _ Hx).
Qed.

Lemma finite_ranks (l : list rating_change) (x : Z) :
  Finite x ∈ rank_or_inf_of <$> l <-> x ∈ ranks l.
Proof.
  unfold ranks. rewrite list_elem_of_fmap, list_elem_of_omap.
  unfold rank_or_inf_of. split.
  - intros (e & He & Hin). exists e. split; [done |].
    destruct (rank e); congruence.
  - intros (e & Hin & He). exists e. split; [| done]. by rewrite He.
Qed.

(** The least of the entries' ranks, [inf] standing for a missing one. *)
Lemma min_from_ranks (e : rating_change) (l : list rating_change) :
  match min_from (rank_or_inf_of e) (rank_or_inf_of <$> l) with
  | Finite m => is_minimum m (ranks (e :: l))
  | Infinity => ranks (e :: l) = []
  end.
Proof.
  pose proof (min_from_spec (rank_or_inf_of e) (rank_or_inf_of <$> l)) as H.
  change (rank_or_inf_of e :: (rank_or_inf_of <$> l))
    with (rank_or_inf_of <$> e :: l) in H.
  destruct (min_from _ _) as [m |].
  - destruct H as [Hin Hle]. split; [by apply finite_ranks |].
    intros x Hx. by apply Hle, finite_ranks.
  - destruct (ranks (e :: l)) as [| x xs] eqn:E; [done |].
    exfalso. apply (H x), finite_ranks. rewrite E. set_solver.
Qed.

(** X27. The best contest position is the least rank among the entries
    that have one, and "N/A" exactly when no entry has a rank (an empty
    history included); an entry without rank raises nothing here. *)
Theorem best_contest_position_minimum (l : list rating_change) :
  match best_contest_position l with
  | Position m => is_minimum m (ranks l)
  | NotAvailable => ranks l = []
  end.
Proof.
  unfold best_contest_position. destruct l as [| e l]; [done |].
  pose proof (min_from_ranks e l) as H.
  by destruct (min_from _ _).
Qed.

(** X28. In a report, which is built only after [analyze_contests] has
    returned, the best contest position is [best_rank_overall], and "N/A"
    when that is [None]. *)
Theorem best_contest_position_agrees (l : list rating_change) :
  Forall complete l ->
  exists out,
    analyze_contests l = Ok out /\
    best_contest_position l =
    match best_rank_overall out with
    | Some m => Position m
    | None => NotAvailable
    end.
Proof.
  intros Hc. destruct (analyze_contests_run l Hc) as (st & Hinv & ->).
  eexists. split; [reflexivity |]. simpl.
  pose proof (inv_overall _ _ Hinv) as Hover.
  destruct (A.best_rank_overall st) as [m |]; [| by subst l].
  destruct Hover as [Hin Hle].
  destruct l as [| e l]; [by apply elem_of_nil in Hin |].
  unfold best_contest_position.
  pose proof (min_from_ranks e l) as Hbest.
  destruct (min_from _ _) as [m' |].
  - destruct Hbest as [Hin' Hle']. f_equal.
    specialize (Hle m' Hin'). specialize (Hle' m Hin). lia.
  - rewrite Hbest in Hin. by apply elem_of_nil in Hin.
Qed.

Lemma best_contest_position_agrees_witness :
  exists out,
    analyze_contests two_rounds = Ok out /\
    best_contest_position two_rounds =
    match best_rank_overall out with
    | Some m => Position m
    | None => NotAvailable
    end.
Proof.
  apply (best_contest_position_agrees two_rounds).
  repeat constructor; by eexists.
Defined.
